(** * kusanagi: Monte-Carlo PILCO rollout core and cost evaluators

    A shallow embedding of [kusanagi/ghost/algorithms/mc_pilco.py] and
    [ghost/cost.py], and the properties of them that the specification
    states.  Further properties of the two files follow, and of the code
    around them: the loss and the dynamics of [shell/cartpole/cartpole.py],
    the state measurement and the serial protocol of
    [kusanagi/shell/plant.py], and the registry of
    [kusanagi/base/Loadable.py].

    ** Modelling conventions

    - A float is a real number ([R] of the Standard Library, given its
      MathComp field and order structure below).  Rounding is not modelled,
      and neither are NaN and infinities: division and square root are the
      total functions of the reals; theorems that depend on a denominator
      or a radicand carry the hypothesis that makes the float computation
      finite.
    - A 1-D array of length [D] is a row vector ['rV[R]_D], a 2-D array
      whose shape is fixed by the program text is a matrix ['M[R]_(m, n)].
    - A particle ensemble, shape [(n, D)] with [n] read at run time
      ([x_next.shape[0]]), is the sequence of its rows, [seq 'rV[R]_D];
      the random-number buffer, shape [(capacity, n, D)], is a sequence
      of ensembles.
    - Python exceptions are the [Err] results of the type [result].
    - [/] between two Theano variables is the true quotient (the Python 3
      reading of the operator), as the [ceil] around it in [get_loss]
      expects.
    - The policy, the dynamics model, the cost callable and [utils.gTrig]
      are collaborators that live outside the two files: they are the
      variables of the sections below.  NumPy's global generator and the
      Theano random streams are explicit states. *)

Set Warnings "-notation-overridden,-ambiguous-paths,-deprecated".
Set Warnings "-redundant-canonical-projection,-ssr-search-moved".
From HB Require Import structures.
From Stdlib Require Import Reals Lra ClassicalEpsilon FunctionalExtensionality.
From Stdlib Require Import String.
From Stdlib Require Strings.Byte.
From mathcomp Require Import boot order algebra.

Set Implicit Arguments.
Unset Strict Implicit.
Unset Printing Implicit Defensive.

Delimit Scope R_scope with coqR.
Import Order.Theory GRing.Theory Num.Theory.
Local Open Scope ring_scope.

(** Terms of type [R] are written with the ring notations. *)
Bind Scope ring_scope with R.
Arguments exp x%_ring_scope.
Arguments sqrt x%_ring_scope.

(** ** The reals as a MathComp real field *)

Definition Reqb (x y : R) : bool :=
  if Req_dec_T x y is left _ then true else false.

Lemma ReqbP : Equality.axiom Reqb.
Proof. by move=> x y; rewrite /Reqb; case: Req_dec_T => h; constructor. Qed.

HB.instance Definition _ := hasDecEq.Build R ReqbP.

Section ClassicalChoice.

Variable T : Type.

Definition cfind (P : pred T) (n : nat) : option T :=
  match excluded_middle_informative (exists x, P x) with
  | left ex => Some (proj1_sig (constructive_indefinite_description _ ex))
  | right _ => None
  end.

Lemma cfind_correct (P : pred T) n x : cfind P n = Some x -> P x.
Proof.
rewrite /cfind; case: excluded_middle_informative => // ex [<-].
exact: (proj2_sig (constructive_indefinite_description _ ex)).
Qed.

Lemma cfind_complete (P : pred T) : (exists x, P x) -> exists n, cfind P n.
Proof.
by move=> ex; exists 0%N; rewrite /cfind; case: excluded_middle_informative.
Qed.

Lemma cfind_ext (P Q : pred T) : P =1 Q -> cfind P =1 cfind Q.
Proof. by move=> /functional_extensionality ePQ n; rewrite ePQ. Qed.

End ClassicalChoice.

HB.instance Definition _ :=
  hasChoice.Build R (@cfind_correct R) (@cfind_complete R) (@cfind_ext R).

Lemma RplusA : associative Rplus.
Proof. by move=> x y z; rewrite Rplus_assoc. Qed.

Lemma RmultA : associative Rmult.
Proof. by move=> x y z; rewrite Rmult_assoc. Qed.

Lemma RmultDl : left_distributive Rmult Rplus.
Proof. by move=> x y z; rewrite Rmult_plus_distr_r. Qed.

Lemma R1_neq0 : R1 != R0.
Proof. by apply/eqP/R1_neq_R0. Qed.

HB.instance Definition _ :=
  GRing.isZmodule.Build R RplusA Rplus_comm Rplus_0_l Rplus_opp_l.

HB.instance Definition _ :=
  GRing.Zmodule_isComNzRing.Build R RmultA Rmult_comm Rmult_1_l RmultDl R1_neq0.

Lemma RmultVr (x : R) : x != 0 -> Rinv x * x = 1.
Proof. by move=> /eqP x0; apply: Rinv_l. Qed.

Lemma Rinv0 : Rinv 0 = 0.
Proof. exact: Rinv_0. Qed.

HB.instance Definition _ := GRing.ComNzRing_isField.Build R RmultVr Rinv0.

Definition Rleb (x y : R) : bool :=
  if Rle_dec x y is left _ then true else false.

Definition Rltb (x y : R) : bool :=
  if Rlt_dec x y is left _ then true else false.

Lemma RlebP x y : reflect (Rle x y) (Rleb x y).
Proof. by rewrite /Rleb; case: Rle_dec => h; constructor. Qed.

Lemma RltbP x y : reflect (Rlt x y) (Rltb x y).
Proof. by rewrite /Rltb; case: Rlt_dec => h; constructor. Qed.

Lemma Rleb0_add x y : Rleb 0 x -> Rleb 0 y -> Rleb 0 (x + y).
Proof.
by move=> /RlebP hx /RlebP hy; apply/RlebP; apply: Rplus_le_le_0_compat.
Qed.

Lemma Rleb0_mul x y : Rleb 0 x -> Rleb 0 y -> Rleb 0 (x * y).
Proof. by move=> /RlebP hx /RlebP hy; apply/RlebP; apply: Rmult_le_pos. Qed.

Lemma Rleb0_anti x : Rleb 0 x -> Rleb x 0 -> x = 0.
Proof. by move=> /RlebP hx /RlebP hy; apply: Rle_antisym. Qed.

Lemma Rleb_sub x y : Rleb 0 (y - x) = Rleb x y.
Proof.
by apply/RlebP/RlebP; rewrite /GRing.add /GRing.opp /GRing.zero /= => h; Lra.lra.
Qed.

Lemma Rleb0_total x : Rleb 0 x || Rleb x 0.
Proof.
case: (Rle_dec 0 x) => h; first by apply/orP; left; apply/RlebP.
by apply/orP; right; apply/RlebP; apply/Rlt_le/Rnot_le_lt.
Qed.

Lemma RabsN x : Rabs (- x) = Rabs x.
Proof. exact: Rabs_Ropp. Qed.

Lemma Rge0_abs x : Rleb 0 x -> Rabs x = x.
Proof. by move=> /RlebP h; apply: Rabs_pos_eq. Qed.

Lemma Rltb_def x y : Rltb x y = (y != x) && Rleb x y.
Proof.
apply/RltbP/andP => [h|[/eqP h1 /RlebP h2]].
  split; last by apply/RlebP/Rlt_le.
  by apply/eqP => e; move: h; rewrite e; apply: Rlt_irrefl.
by case: h2 => // e; case: h1.
Qed.

HB.instance Definition _ := Num.IntegralDomain_isLeReal.Build R
  Rleb0_add Rleb0_mul Rleb0_anti Rleb_sub Rleb0_total RabsN Rge0_abs Rltb_def.


Lemma RltP (x y : R) : reflect (Rlt x y) (x < y).
Proof. exact: RltbP. Qed.

(** ** Results of fallible Python code *)

Variant exn : Type :=
  | NameError of string     (* a name that is bound nowhere *)
  | LinAlgError             (* numpy / scipy: singular or not positive definite *)
  | ValueError              (* shapes that do not fit *)
  | IndexError.             (* index out of bounds *)

Variant result (A : Type) : Type :=
  | Ok of A
  | Err of exn.

Arguments Err {A} e.

Definition bind {A B : Type} (r : result A) (k : A -> result B) : result B :=
  match r with
  | Ok a => k a
  | Err e => Err e
  end.

Notation "'do' x <- r ; k" := (bind r (fun x => k))
  (at level 200, x pattern, r at level 100, k at level 200,
   format "'[v' 'do'  x  <-  r ; '/' k ']'").

(** ** Array primitives *)

Section Arrays.

Variable D : nat.

(** A particle ensemble: [n] rows of dimension [D]. *)
Definition ensemble : Type := seq 'rV[R]_D.

(** [x.mean(0)] *)
Definition mean0 (x : ensemble) : 'rV[R]_D :=
  (size x)%:R^-1 *: \sum_(r <- x) r.

(** [x.T.dot(x)] *)
Definition gram (x : ensemble) : 'M[R]_D := \sum_(r <- x) r^T *m r.

(** [tt.outer(u, v)] *)
Definition outer (u v : 'rV[R]_D) : 'M[R]_D := u^T *m v.

(** [z.dot(M)] for an ensemble [z] and a matrix [M] *)
Definition dot_rows (D' : nat) (z : ensemble) (M : 'M[R]_(D, D')) :
    seq 'rV[R]_D' :=
  [seq r *m M | r <- z].

(** [m + x]: a vector added to every row of an ensemble (broadcasting) *)
Definition add_row (m : 'rV[R]_D) (x : ensemble) : ensemble :=
  [seq m + r | r <- x].

(** [x + y] for two 2-D arrays: Theano's elementwise sum of two matrices
    needs equal shapes. *)
Definition add_rows (x y : ensemble) : result ensemble :=
  if size x == size y then Ok [seq p.1 + p.2 | p <- zip x y]
  else Err ValueError.

(** [s * x]: a scalar times every entry of a 1-D array *)
Definition scale_seq (s : R) (x : seq R) : seq R := [seq s * c | c <- x].

End Arrays.

(** [tt.concatenate([x, y], axis=1)] *)
Definition concatenate1 (D1 D2 : nat) (x : ensemble D1) (y : ensemble D2) :
    result (ensemble (D1 + D2)) :=
  if size x == size y then Ok [seq row_mx p.1 p.2 | p <- zip x y]
  else Err ValueError.

(** [numpy.linalg.inv], behind [theano.tensor.nlinalg.matrix_inverse] *)
Definition matrix_inverse (n : nat) (A : 'M[R]_n) : result 'M[R]_n :=
  if A \in unitmx then Ok (invmx A) else Err LinAlgError.

(** [scipy.linalg.cholesky(A, lower=True)], behind
    [theano.tensor.slinalg.cholesky]: the lower-triangular factor [L] with
    positive diagonal and [L L^T = A], computed from the lower triangle of
    [A] column by column; [LinAlgError] as soon as a pivot is not
    positive. *)
Fixpoint cholesky (n : nat) : 'M[R]_n -> result 'M[R]_n :=
  match n return 'M[R]_n -> result 'M[R]_n with
  | 0 => fun A => Ok A
  | n'.+1 => fun A : 'M[R]_(1 + n') =>
      let a := A 0 0 in
      if 0 < a then
        let l := sqrt a in
        let c := l^-1 *: dlsubmx A in
        do L' <- cholesky (drsubmx A - c *m c^T);
        Ok (block_mx l%:M 0 c L' : 'M[R]_(1 + n'))
      else Err LinAlgError
  end.

Arguments cholesky : simpl never.

(** A symmetric matrix; a positive semi-definite one. *)
Definition symmetric (n : nat) (A : 'M[R]_n) : Prop := A^T = A.

Definition psd (n : nat) (A : 'M[R]_n) : Prop :=
  forall v : 'rV[R]_n, 0 <= (v *m A *m v^T) 0 0.

(** The quadratic form of a matrix. *)
Definition qform (n : nat) (A : 'M[R]_n) (v : 'rV[R]_n) : R :=
  (v *m A *m v^T) 0 0.

(** The empirical moments of an ensemble, as [step_rollout] computes them. *)
Definition empirical_mean (D : nat) (x : ensemble D) : 'rV[R]_D := mean0 x.

Definition empirical_cov (D : nat) (x : ensemble D) : 'M[R]_D :=
  (size x)%:R^-1 *: gram x - outer (mean0 x) (mean0 x).

(** ** [ghost/cost.py] *)

Module Cost.

Section Losses.

Variable D : nat.

(** [M.dot(v)] for a 2-D array [M] and a 1-D array [v]; [u.dot(v)] for two
    1-D arrays.  ([v.dot(M)] is the row-vector product [v *m M]; [.T] does
    nothing to a 1-D array.) *)
Definition mat_dot_vec (k : nat) (M : 'M[R]_(k, D)) (v : 'rV[R]_D) : 'rV[R]_k :=
  (M *m v^T)^T.

Definition vec_dot_vec (u v : 'rV[R]_D) : R := (u *m v^T) 0 0.

(** [T.sum(M)]: the sum of all the entries of [M] *)
Definition tsum (m n : nat) (M : 'M[R]_(m, n)) : R := \sum_i \sum_j M i j.

(** The dictionary [params], read at the keys ['Q'] and ['target']. *)
Record loss_params (k : nat) : Type := LossParams {
  params_Q : 'M[R]_(D, k);
  params_target : 'rV[R]_D
}.

Definition linear_loss (k : nat) (mx : 'rV[R]_D) (Sx : 'M[R]_D)
    (params : loss_params k) (absolute : bool) : 'rV[R]_k * 'M[R]_k :=
  let Q := params_Q params in
  let target := params_target params in
  let delta := mx - target in
  let SxQ := Sx *m Q in
  let m_cost := mat_dot_vec Q^T delta in
  let s_cost := Q^T *m Sx *m Q in
  (m_cost, s_cost).

(** The values that the names of [quadratic_loss] are bound to. *)
Variant pyval : Type :=
  | Scalar of R
  | Vec of 'rV[R]_D
  | Mat of 'M[R]_D
  | Opaque.                 (* a module, a function, a dictionary *)

Definition namespace : Type := seq (string * pyval).

Fixpoint lookup (name : string) (ns : namespace) : result pyval :=
  match ns with
  | [::] => Err (NameError name)
  | (k, v) :: ns' => if String.eqb k name then Ok v else lookup name ns'
  end.

(** The names bound at module level in [cost.py]. *)
Definition module_globals : namespace :=
  [:: ("theano", Opaque); ("T", Opaque); ("matrix_inverse", Opaque);
      ("det", Opaque); ("print_with_stamp", Opaque); ("gTrig2", Opaque);
      ("linear_loss", Opaque); ("quadratic_loss", Opaque);
      ("quadratic_saturating_loss", Opaque); ("generic_loss", Opaque)]%string.

(** [a.dot(v.T)] for the 1-D array [a] and whatever [v] is bound to. *)
Definition dot_T (a : 'rV[R]_D) (v : pyval) : result pyval :=
  match v with
  | Vec w => Ok (Scalar (vec_dot_vec a w))
  | Mat M => Ok (Vec (a *m M^T))
  | Scalar s => Ok (Vec (s *: a))
  | Opaque => Err ValueError
  end.

(** [s + 4 * v], with broadcasting of the scalar [s] *)
Definition add4 (s : R) (v : pyval) : pyval :=
  match v with
  | Scalar t => Scalar (s + 4%:R * t)
  | Vec w => Vec (const_mx s + 4%:R *: w)
  | Mat M => Mat (const_mx s + 4%:R *: M)
  | Opaque => Opaque
  end.

Definition quadratic_loss (mx : 'rV[R]_D) (Sx : 'M[R]_D)
    (params : loss_params D) : result (R * pyval) :=
  let Q := params_Q params in
  let target := params_target params in
  let delta := mx - target in
  let deltaQ := delta *m Q in
  let SxQ := Sx *m Q in
  let m_cost := tsum SxQ + vec_dot_vec deltaQ delta in
  let locals : namespace :=
    [:: ("mx", Vec mx); ("Sx", Mat Sx); ("params", Opaque); ("Q", Mat Q);
        ("target", Vec target); ("delta", Vec delta); ("deltaQ", Vec deltaQ);
        ("SxQ", Mat SxQ); ("m_cost", Scalar m_cost)]%string in
  do deltaiQ <- lookup "deltaiQ" (locals ++ module_globals);
  do t <- dot_T (deltaQ *m Sx) deltaiQ;
  let s_cost := add4 (2%:R * tsum (SxQ *m SxQ)) t in
  Ok (m_cost, s_cost).

Definition quadratic_saturating_loss (mx : 'rV[R]_D) (Sx : 'M[R]_D)
    (params : loss_params D) : result (R * R) :=
  let Q := params_Q params in
  let target := params_target params in
  let delta := mx - target in
  let deltaQ := delta *m Q in
  let SxQ := Sx *m Q in
  let IpSxQ := 1%:M + SxQ in
  do iIpSxQ <- matrix_inverse IpSxQ;
  let S1 := Q *m iIpSxQ in
  let m_cost :=
    - exp (- 2%:R^-1 * vec_dot_vec (delta *m S1) delta) / sqrt (\det IpSxQ) in
  let Ip2SxQ := 1%:M + 2%:R *: SxQ in
  do iIp2SxQ <- matrix_inverse Ip2SxQ;
  let S2 := Q *m iIp2SxQ in
  let s_cost :=
    exp (- vec_dot_vec (delta *m S2) delta) / sqrt (\det Ip2SxQ) - m_cost ^+ 2 in
  Ok (1 + m_cost, s_cost).

End Losses.

End Cost.

(** ** [kusanagi/ghost/algorithms/mc_pilco.py] *)

(** [theano.scan(fn, sequences=[zs], outputs_info=..., n_steps=n)]: [fn] is
    applied [n] times, to the successive entries of the sequence and to
    the carried state; the per-step outputs are stacked.  A sequence with
    fewer than [n] entries is an error. *)
Fixpoint scan (Z O S : Type) (fn : Z -> S -> result (O * S))
    (sequences : seq Z) (s : S) (n_steps : nat) {struct n_steps} :
    result (seq O * S) :=
  match n_steps with
  | 0 => Ok ([::], s)
  | n.+1 =>
      match sequences with
      | [::] => Err ValueError
      | z :: zs =>
          do os <- fn z s;
          do rest <- scan fn zs os.2 n;
          Ok (os.1 :: rest.1, rest.2)
      end
  end.

(** [a.T] for a 2-D array given by its rows, and [a.transpose(1, 0, 2)]
    for a 3-D one given by its slices.  The arrays are rectangular: the
    number of columns is read off the first row. *)
Definition transpose (A : Type) (a0 : A) (a : seq (seq A)) : seq (seq A) :=
  mkseq (fun i => [seq nth a0 r i | r <- a]) (size (head [::] a)).

(** [tt.tile(z, (k, 1, 1))] *)
Definition tile (A : Type) (z : seq A) (k : nat) : seq A := flatten (nseq k z).

(** [tt.ceil(H / c)] as an integer: the quotient is the true quotient of
    the two integers, as [/] gives it between Theano variables. *)
Definition ceil_div (H c : nat) : nat := (H %/ c + ~~ (c %| H))%N.

(** The truncation [ifelse(z.shape[0] < H, tile(z, ...), z)[:H]] of
    [get_loss]. *)
Definition fit_horizon (A : Type) (z : seq A) (H : nat) : seq A :=
  take H (if (size z < H)%N then tile z (ceil_div H (size z)) else z).

(** Successive draws from a generator, in the order in which
    [np.random.normal(size=...)] fills an array. *)
Fixpoint draw_seq (G A : Type) (draw : G -> A * G) (k : nat) (g : G) :
    seq A * G :=
  match k with
  | 0 => ([::], g)
  | k'.+1 =>
      let: (a, g1) := draw g in
      let: (rest, g2) := draw_seq draw k' g1 in
      (a :: rest, g2)
  end.

Section McPilco.

(** [D] state dimensions, [Da] dimensions after the angles are replaced by
    their sine and cosine, [U] control dimensions. *)
Variables D Da U : nat.

(** The state that evaluating the graph updates: the random streams of
    the policy and of the dynamics model, and the stream [m_rng]. *)
Variable rstate : Type.

(** [utils.gTrig(x, angle_dims, D)] *)
Variable gTrig : ensemble D -> ensemble Da.

(** [pol.evaluate(xa, symbolic=True, iid_per_eval=b, return_samples=True)] *)
Variable pol_evaluate : bool -> ensemble Da -> rstate -> ensemble U * rstate.

(** [dyn.predict_symbolic(xu, iid_per_eval=b, return_samples=True)] *)
Variable dyn_predict :
  bool -> ensemble (Da + U) -> rstate -> (ensemble D * ensemble D) * rstate.

(** [cost(mx, Sx)] and [cost(x, None)] *)
Variable cost_moments : 'rV[R]_D -> 'M[R]_D -> R * R.
Variable cost_particles : ensemble D -> seq R.

(** [dyn.update] and [pol.update], when the objects have them. *)
Variables dyn_update pol_update : option (nat -> rstate -> rstate).

(** [m_rng.normal((H, n_samples, D))] *)
Variable mrg_normal : nat -> nat -> rstate -> seq (ensemble D) * rstate.

(** NumPy's global generator: one standard-normal draw. *)
Variable np_state : Type.
Variable np_normal : np_state -> R * np_state.

Definition propagate_particles (x : ensemble D) (iid_per_eval : bool)
    (rs : rstate) : result (ensemble D * ensemble D * rstate) :=
  let xa := gTrig x in
  let: (u, rs1) := pol_evaluate iid_per_eval xa rs in
  do xu <- concatenate1 xa u;
  let: (delta_x, sn_x, rs2) := dyn_predict iid_per_eval xu rs1 in
  do x_next <- add_rows x delta_x;
  Ok (x_next, sn_x, rs2).

(** What a step emits, and what it carries to the next step. *)
Definition step_output : Type := (R * seq R * ensemble D)%type.
Definition step_carry : Type := (ensemble D * R * rstate)%type.

Definition step_rollout (resample iid_per_eval : bool) (gamma0 : R)
    (z : ensemble D) (s : step_carry) : result (step_output * step_carry) :=
  let: (x, gamma, rs) := s in
  do p <- propagate_particles x iid_per_eval rs;
  let: (x_next, sn, rs') := p in
  let n : R := (size x_next)%:R in
  let mx_next := mean0 x_next in
  let Sx_next := n^-1 *: gram x_next - outer mx_next mx_next in
  let mc_next := (cost_moments mx_next Sx_next).1 in
  let c_next := cost_particles x_next in
  do x_next <-
    (if resample then
       do L <- cholesky Sx_next;
       Ok (add_row mx_next (dot_rows z L^T))
     else Ok x_next);
  Ok ((gamma * mc_next, scale_seq gamma c_next, x_next),
      (x_next, gamma * gamma0, rs')).

(** [rollout] returns [[mcosts, costs, trajectories], rollout_updts]. *)
Definition rollout (x0 : ensemble D) (H : nat) (gamma0 : R)
    (resample iid_per_eval : bool) (z : seq (ensemble D)) (rs : rstate) :
    result (seq R * seq (seq R) * seq (seq 'rV[R]_D) * rstate) :=
  do output <-
    scan (step_rollout resample iid_per_eval gamma0) z (x0, gamma0, rs) H;
  let: (rollout_output, (_, _, rollout_updts)) := output in
  let mcosts := [seq o.1.1 | o <- rollout_output] in
  let costs := [seq o.1.2 | o <- rollout_output] in
  let trajectories := [seq o.2 | o <- rollout_output] in
  let costs := transpose 0 costs in
  let trajectories := transpose 0 trajectories in
  Ok (mcosts, costs, trajectories, rollout_updts).

(** [np.random.normal(size=(c, n, D))] *)
Definition draw_row (g : np_state) : 'rV[R]_D * np_state :=
  let: (v, g') := draw_seq np_normal D g in
  (\row_j nth 0 v j, g').

Definition np_random_normal (c n : nat) (g : np_state) :
    seq (ensemble D) * np_state :=
  draw_seq (draw_seq draw_row n) c g.

Definition apply_update (upd : option (nat -> rstate -> rstate))
    (n_samples : nat) (rs : rstate) : rstate :=
  if upd is Some f then f n_samples rs else rs.

(** The inputs [[mx0, Sx0, H, gamma]] of the graph. *)
Definition loss_inputs : Type := ('rV[R]_D * 'M[R]_D * nat * R)%type.

(** The outputs: the loss alone, or [[loss, costs, trajectories]]; and the
    updates. *)
Definition loss_outputs : Type :=
  (R * option (seq (seq R) * seq (seq 'rV[R]_D)) * rstate)%type.

(** Where the graph takes its noise from: a shared variable that holds
    the buffer drawn when the graph was built, or the stream [m_rng]. *)
Variant noise_source : Type :=
  | Shared of seq (ensemble D)
  | Stream of nat.

Definition noise (src : noise_source) (H : nat) (rs : rstate) :
    seq (ensemble D) * rstate :=
  match src with
  | Shared z => (fit_horizon z H, rs)
  | Stream n_samples => mrg_normal H n_samples rs
  end.

(** The initial particles [x0 = mx0 + z[0].dot(Lx0.T)] of [get_loss]. *)
Definition initial_particles (z : seq (ensemble D)) (mx0 : 'rV[R]_D)
    (Sx0 : 'M[R]_D) : result (ensemble D) :=
  do Lx0 <- cholesky Sx0;
  do z0 <- (if z is z0 :: _ then Ok z0 else Err IndexError);
  Ok (add_row mx0 (dot_rows z0 Lx0^T)).

(** The graph that [get_loss] returns, as a function of its inputs. *)
Definition loss_graph (src : noise_source)
    (intermediate_outs resample_particles resample_dyn average : bool)
    (inps : loss_inputs) (rs : rstate) : result loss_outputs :=
  let: (mx0, Sx0, H, gamma) := inps in
  let: (z, rs) := noise src H rs in
  do x0 <- initial_particles z mx0 Sx0;
  do r <- rollout x0 H gamma resample_particles resample_dyn z rs;
  let: (mean_costs, costs, trajectories, updts) := r in
  let loss :=
    if average then (size mean_costs)%:R^-1 * \sum_(c <- mean_costs) c
    else \sum_(c <- mean_costs) c in
  Ok (loss, if intermediate_outs then Some (costs, trajectories) else None,
      updts).

(** [get_loss]: the effects of building the graph (the model updates and,
    with [crn], one draw of the buffer from NumPy's generator), and the
    graph. *)
Definition get_loss (n_samples : nat)
    (intermediate_outs resample_particles crn resample_dyn average : bool)
    (rs : rstate) (g : np_state) :
    noise_source * (loss_inputs -> rstate -> result loss_outputs) *
    rstate * np_state :=
  let rs := apply_update dyn_update n_samples rs in
  let rs := apply_update pol_update n_samples rs in
  let: (src, g) :=
    if crn then
      let: (z, g') := np_random_normal 100 n_samples g in (Shared z, g')
    else (Stream n_samples, g) in
  (src,
   loss_graph src intermediate_outs resample_particles resample_dyn average,
   rs, g).

Definition build_rollout (n_samples : nat)
    (resample_particles crn resample_dyn average : bool)
    (rs : rstate) (g : np_state) :=
  get_loss n_samples true resample_particles crn resample_dyn average rs g.

(** *** The particle dynamics on their own

    What the specification calls the raw propagated ensemble and the
    reprojected one, step by step, without costs and discount: the
    statements below are phrased against this trace. *)

(** The ensemble that step [t] keeps, from the raw propagated one. *)
Definition reproject (resample : bool) (z x_next : ensemble D) :
    result (ensemble D) :=
  if resample then
    do L <- cholesky (empirical_cov x_next);
    Ok (add_row (empirical_mean x_next) (dot_rows z L^T))
  else Ok x_next.

(** One step: the raw propagated ensemble and the kept one. *)
Definition particle_step (resample iid_per_eval : bool) (z : ensemble D)
    (s : ensemble D * rstate) :
    result ((ensemble D * ensemble D) * (ensemble D * rstate)) :=
  do p <- propagate_particles s.1 iid_per_eval s.2;
  do kept <- reproject resample z p.1.1;
  Ok ((p.1.1, kept), (kept, p.2)).

Definition particle_trace (resample iid_per_eval : bool)
    (z : seq (ensemble D)) (x0 : ensemble D) (rs : rstate) (H : nat) :
    result (seq (ensemble D * ensemble D) * (ensemble D * rstate)) :=
  scan (particle_step resample iid_per_eval) z (x0, rs) H.

(** The mean cost and the per-particle costs of an ensemble, before any
    discount. *)
Definition mean_cost (x : ensemble D) : R :=
  (cost_moments (empirical_mean x) (empirical_cov x)).1.

Definition undiscounted_mean_costs (resample iid_per_eval : bool)
    (z : seq (ensemble D)) (x0 : ensemble D) (rs : rstate) (H : nat) :
    result (seq R) :=
  do tr <- particle_trace resample iid_per_eval z x0 rs H;
  Ok [seq mean_cost p.1 | p <- tr.1].

(** What [step_rollout] emits along a trace, from the discount [gamma]
    on. *)
Fixpoint discounted (gamma0 gamma : R) (tr : seq (ensemble D * ensemble D)) :
    seq step_output :=
  match tr with
  | [::] => [::]
  | p :: tr' =>
      (gamma * mean_cost p.1, scale_seq gamma (cost_particles p.1), p.2)
        :: discounted gamma0 (gamma * gamma0) tr'
  end.

(** Column [t] of an array given by its rows: [a[:, t]]. *)
Definition column (A : Type) (a0 : A) (t : nat) (a : seq (seq A)) : seq A :=
  [seq nth a0 r t | r <- a].

End McPilco.

(** ** A one-dimensional instance

    One state dimension, no angles, the policy that returns the state as
    the control, the dynamics model that predicts no change, and costs
    that read the single coordinate. *)

Module Toy.

Definition gTrig (x : ensemble 1) : ensemble 1 := x.

Definition pol_evaluate (iid_per_eval : bool) (xa : ensemble 1) (rs : unit) :
    ensemble 1 * unit :=
  (xa, rs).

Definition dyn_predict (iid_per_eval : bool) (xu : ensemble (1 + 1))
    (rs : unit) : (ensemble 1 * ensemble 1) * unit :=
  (([seq 0 | _ <- xu], [seq 0 | _ <- xu]), rs).

Definition cost_moments (mx : 'rV[R]_1) (Sx : 'M[R]_1) : R * R :=
  (mx 0 0 ^+ 2 + Sx 0 0, 0).

Definition cost_particles (x : ensemble 1) : seq R :=
  [seq (r : 'rV[R]_1) 0 0 ^+ 2 | r <- x].

(** A generator that counts: its [k]-th draw is [k]. *)
Definition np_normal (g : nat) : R * nat := (g%:R, g.+1).

(** A stream that yields zeros. *)
Definition mrg_normal (H n_samples : nat) (rs : unit) :
    seq (ensemble 1) * unit :=
  (nseq H (nseq n_samples 0), rs).

(** The one-dimensional vector with entry [a], and the ensemble of
    one-dimensional particles with the coordinates [s]. *)
Definition vec1 (a : R) : 'rV[R]_1 := a%:M.

Definition ens1 (s : seq R) : ensemble 1 := [seq vec1 a | a <- s].

(** The first coordinate of the first particle. *)
Definition first_coordinate (x : ensemble 1) : R := (nth 0 x 0) 0 0.

(** Two particles, [1] and [-1], and two noise slices. *)
Definition toy_x0 : ensemble 1 := ens1 [:: 1; -1].

Definition toy_z : seq (ensemble 1) :=
  [:: ens1 [:: 2%:R; 0]; ens1 [:: 1; 1]].

(** What the two steps propagate and keep when they resample, and what
    [rollout] then returns, for the discount [gamma0]. *)
Definition toy_trace : seq (ensemble 1 * ensemble 1) :=
  [:: (toy_x0, ens1 [:: 2%:R; 0]);
      (ens1 [:: 2%:R; 0], ens1 [:: 2%:R; 2%:R])].

Definition toy_steps (gamma0 : R) : seq (R * seq R * ensemble 1) :=
  discounted cost_moments cost_particles gamma0 gamma0 toy_trace.

Definition toy_mean_costs (gamma0 : R) : seq R :=
  [seq o.1.1 | o <- toy_steps gamma0].

Definition toy_costs (gamma0 : R) : seq (seq R) :=
  transpose 0 [seq o.1.2 | o <- toy_steps gamma0].

Definition toy_trajectories (gamma0 : R) : seq (seq 'rV[R]_1) :=
  transpose 0 [seq o.2 | o <- toy_steps gamma0].

End Toy.

(** A positive definite matrix. *)
Definition positive_definite (n : nat) (A : 'M[R]_n) : Prop :=
  forall v : 'rV[R]_n, v != 0 -> 0 < qform A v.

(** ** [shell/cartpole/cartpole.py] *)

Module Cartpole.

(** An index into an axis of length [n], as NumPy reads it: a negative
    index counts from the end, and an index outside [[-n, n)] is an
    [IndexError]. *)
Definition np_index (n : nat) (i : int) : result 'I_n :=
  let k :=
    match i with
    | Posz k => Some k
    | Negz m => if (m < n)%N then Some (n - m.+1)%N else None
    end in
  if k is Some k' then
    if insub k' is Some o then Ok o else Err IndexError
  else Err IndexError.

(** [Q[i, j] = v] *)
Definition setitem (n : nat) (Q : 'M[R]_n) (i j : int) (v : R) :
    result 'M[R]_n :=
  do a <- np_index n i;
  do b <- np_index n j;
  Ok (\matrix_(r, c) if (r == a) && (c == b) then v else Q r c).

(** The weight matrix of [cartpole_loss], from [np.zeros((Da, Da))]. *)
Definition cartpole_Q (Da : nat) (ell : R) : result 'M[R]_Da :=
  let Q : 'M[R]_Da := 0 in
  do Q <- setitem Q 0 0 1;
  do Q <- setitem Q 0 (Negz 1) ell;
  do Q <- setitem Q (Negz 1) 0 ell;
  do Q <- setitem Q (Negz 1) (Negz 1) (ell ^+ 2);
  do Q <- setitem Q (Negz 0) (Negz 0) (ell ^+ 2);
  Ok Q.

Section Loss.

(** [D] state dimensions, [Da] dimensions once the angles are replaced by
    their sine and cosine. *)
Variables D Da : nat.

(** [utils.gTrig_np(target, angle_dims).flatten()] and
    [utils.gTrig2(mx, Sx, angle_dims, D)], which live outside the file. *)
Variable gTrig_np : 'rV[R]_D -> seq nat -> 'rV[R]_Da.
Variable gTrig2 :
  'rV[R]_D -> 'M[R]_D -> seq nat -> nat ->
  'rV[R]_Da * 'M[R]_Da * 'M[R]_(D, Da).

(** [params['width']]: a number, or a list of numbers. *)
Variant width_param : Type :=
  | Width of R
  | Widths of seq R.

(** The dictionary [params], read at its five keys; [params['expl']] is
    [None] or a number. *)
Record cartpole_params : Type := CartpoleParams {
  angle_dims : seq nat;
  width : width_param;
  expl : option R;
  pendulum_length : R;
  target : 'rV[R]_D
}.

Definition loss_function : Type :=
  'rV[R]_Da -> 'M[R]_Da -> Cost.loss_params Da Da -> result (R * R).

(** The body of the loop over the widths: the lists [M_cost] and
    [S_cost]. *)
Fixpoint width_costs (loss_func : loss_function) (b : option R)
    (mxa : 'rV[R]_Da) (Sxa : 'M[R]_Da) (targeta : 'rV[R]_Da) (Q : 'M[R]_Da)
    (cw : seq R) : result (seq R * seq R) :=
  match cw with
  | [::] => Ok ([::], [::])
  | c :: cw' =>
      let loss_params := Cost.LossParams ((c ^+ 2)^-1 *: Q) targeta in
      do ms <- loss_func mxa Sxa loss_params;
      let: (m_cost, s_cost) := ms in
      let m_cost :=
        if b is Some b' then
          if b' != 0 then m_cost + b' * sqrt s_cost else m_cost
        else m_cost in
      do rest <- width_costs loss_func b mxa Sxa targeta Q cw';
      Ok (m_cost :: rest.1, s_cost :: rest.2)
  end.

(** [cartpole_loss]; its argument [u] is not read, and [loss_func] is
    [quadratic_saturating_loss] unless the caller gives another one. *)
Definition cartpole_loss (mx : 'rV[R]_D) (Sx : 'M[R]_D)
    (params : cartpole_params) (loss_func : loss_function) : result (R * R) :=
  let angle_dims := angle_dims params in
  let cw := match width params with Width c => [:: c] | Widths cs => cs end in
  let b := expl params in
  let ell := pendulum_length params in
  let target := target params in
  let targeta := gTrig_np target angle_dims in
  let: (mxa, Sxa, Ca) := gTrig2 mx Sx angle_dims D in
  do Q <- cartpole_Q Da ell;
  do costs <- width_costs loss_func b mxa Sxa targeta Q cw;
  let: (M_cost, S_cost) := costs in
  Ok (\sum_(m_cost <- M_cost) m_cost, \sum_(s_cost <- S_cost) s_cost).

End Loss.

(** The parameters of the cart and the pendulum, [self.params]. *)
Record plant_params : Type := PlantParams {
  param_l : R;
  param_m : R;
  param_M : R;
  param_b : R;
  param_g : R
}.

(** [a[i]] for a 1-D array *)
Definition getitem (a : seq R) (i : nat) : result R :=
  if (i < size a)%N then Ok (nth 0 a i) else Err IndexError.

(** The force that the two functions below read: [f[0]], with [f = [0]]
    when no control is set. *)
Definition force (u : option (seq R)) : R := nth 0 (odflt [:: 0] u) 0.

(** [Cartpole.dynamics]: the time derivative of the state
    [(x, dx, dtheta, theta)] under the force [self.u]; the array [dz] of
    shape [(4, 1)] is the list of its entries, and the control, a column
    after [apply_control], the list of its rows. *)
Definition dynamics (p : plant_params) (u : option (seq R)) (t : R)
    (z : seq R) : result (seq R) :=
  let l := param_l p in
  let m := param_m p in
  let M := param_M p in
  let b := param_b p in
  let g := param_g p in
  let f := if u is Some f then f else [:: 0] in
  do z3 <- getitem z 3;
  let sz := sin z3 in
  let cz := cos z3 in
  let cz2 := cz * cz in
  do z2 <- getitem z 2;
  let a0 := m * l * z2 * z2 * sz in
  let a1 := g * sz in
  do f0 <- getitem f 0;
  do z1 <- getitem z 1;
  let a2 := f0 - b * z1 in
  let a3 := 4%:R * (M + m) - 3%:R * m * cz2 in
  let dz0 := z1 in
  let dz1 := (2%:R * a0 + 3%:R * m * a1 * cz + 4%:R * a2) / a3 in
  let dz2 :=
    - 3%:R * (a0 * cz + 2%:R * ((M + m) * a1 + a2 * cz)) / (l * a3) in
  let dz3 := z2 in
  Ok [:: dz0; dz1; dz2; dz3].

(** [Cartpole.dynamics_no_angles]: the change over [self.dt] of the state
    [(x, dx, dtheta, sin theta, cos theta)] under the force [u]. *)
Definition dynamics_no_angles (p : plant_params) (dt : R) (t : R)
    (z : seq R) (u : option (seq R)) : result (seq R) :=
  let l := param_l p in
  let m := param_m p in
  let M := param_M p in
  let b := param_b p in
  let g := param_g p in
  let f := if u is Some f then f else [:: 0] in
  do sz <- getitem z 3;
  do cz <- getitem z 4;
  let cz2 := cz * cz in
  do z2 <- getitem z 2;
  let a0 := m * l * z2 * z2 * sz in
  let a1 := g * sz in
  do f0 <- getitem f 0;
  do z1 <- getitem z 1;
  let a2 := f0 - b * z1 in
  let a3 := 4%:R * (M + m) - 3%:R * m * cz2 in
  let dz0 := z1 in
  let dz1 := (2%:R * a0 + 3%:R * m * a1 * cz + 4%:R * a2) / a3 in
  let dz2 :=
    - 3%:R * (a0 * cz + 2%:R * ((M + m) * a1 + a2 * cz)) / (l * a3) in
  let dz3 := cz * z2 in
  let dz4 := - sz * z2 in
  Ok [seq dz * dt | dz <- [:: dz0; dz1; dz2; dz3; dz4]].

End Cartpole.

(** An instance of the cart and the pendulum without angle dimensions:
    two state dimensions, [gTrig_np] and [gTrig2] the identity, two
    widths, no exploration term, unit masses and length. *)

Module CartpoleToy.

Definition gTrig_np (target : 'rV[R]_2) (angle_dims : seq nat) : 'rV[R]_2 :=
  target.

Definition gTrig2 (mx : 'rV[R]_2) (Sx : 'M[R]_2) (angle_dims : seq nat)
    (D : nat) : 'rV[R]_2 * 'M[R]_2 * 'M[R]_2 :=
  (mx, Sx, 1%:M).

Definition params : Cartpole.cartpole_params 2 :=
  Cartpole.CartpoleParams [::] (Cartpole.Widths [:: 1; 2%:R]) (Some 0) 1 0.

Definition toy_plant : Cartpole.plant_params := Cartpole.PlantParams 1 1 1 0 1.

End CartpoleToy.

(** ** [kusanagi/shell/plant.py] *)

Module Plant.

Section GetState.

(** [D] state dimensions, [Da] dimensions once the angles are replaced by
    their sine and cosine. *)
Variables D Da : nat.

(** The state of the generator behind [self.noise_dist], and
    [utils.gTrig_np], which lives outside the file. *)
Variable rng : Type.
Variable gTrig_np : 'rV[R]_D -> seq nat -> 'rV[R]_Da.

(** The attributes of a [Plant] that [get_state] reads.  [self.state]
    holds a NumPy array of [D] floats, as [ODEPlant.set_state] and
    [ODEPlant._step] store it; [self.noise_dist] is [None] or an object
    whose [sample(1).flatten()] draws one vector of [D] floats. *)
Record plant : Type := MkPlant {
  dt : R;
  noise_dist : option (rng -> 'rV[R]_D * rng);
  angle_dims : seq nat;
  state : 'rV[R]_D;
  t : R
}.

(** [a.flatten()] for a 1-D array: its entries. *)
Definition flatten_row (n : nat) (a : 'rV[R]_n) : seq R :=
  [seq a 0 i | i <- enum 'I_n].

(** [Plant.get_state].  [state] is bound to the array [self.state]
    itself, and [state += ...] adds to that array in place: the plant
    that the call leaves behind holds the sum. *)
Definition get_state (noisy : bool) (p : plant) (g : rng) :
    (seq R * R) * plant * rng :=
  let state := state p in
  let: (state, p, g) :=
    if noisy then
      if noise_dist p is Some sample then
        let: (e, g') := sample g in
        let state := state + e in
        (state, MkPlant (dt p) (noise_dist p) (angle_dims p) state (t p), g')
      else (state, p, g)
    else (state, p, g) in
  let out :=
    if angle_dims p is [::] then flatten_row state
    else flatten_row (gTrig_np state (angle_dims p)) in
  ((out, t p), p, g).

(** [PlantDraw.polling_loop], for the [k] cycles that the flag
    [self.running] lets it run: each cycle reads the plant with
    [self.plant.get_state()] and sends the measurement down the pipe
    when its time stamp differs from [current_t], which stays [-1].  The
    measurements sent, and the plant and the generator afterwards;
    the clock and the sleeps are left out. *)
Fixpoint polling_loop (k : nat) (p : plant) (g : rng) :
    seq (seq R * R) * plant * rng :=
  let current_t : R := -1 in
  match k with
  | 0 => ([::], p, g)
  | k'.+1 =>
      let: (m, p1, g1) := get_state true p g in
      let sent := if m.2 != current_t then [:: m] else [::] in
      let: (rest, p2, g2) := polling_loop k' p1 g1 in
      (sent ++ rest, p2, g2)
  end.

End GetState.

End Plant.

(** A plant of one dimension whose noise distribution counts: its
    [k]-th sample is [k]. *)

Module PlantToy.

Definition sample (g : nat) : 'rV[R]_1 * nat := ((g%:R)%:M, g.+1).

Definition noisy_plant : Plant.plant 1 nat :=
  Plant.MkPlant 1 (Some sample) [::] 0 0.

Definition toy_gTrig_np (x : 'rV[R]_1) (angle_dims : seq nat) : 'rV[R]_1 := x.

End PlantToy.

(** *** [SerialPlant.state_from_serial]

    The bytes that arrive on the serial line are a sequence; every
    [self.serial.read()] takes the next one and waits when there is none
    (the port is opened without a timeout).  The commands written to the
    line and the flushes are left out.  [bytes] objects are read as
    Python 3 reads them: indexing one gives an integer. *)

Lemma byte_eqP : Equality.axiom Byte.eqb.
Proof.
move=> a b; apply: (iffP idP); first exact: Strings.Byte.byte_dec_bl.
exact: Strings.Byte.byte_dec_lb.
Qed.

HB.instance Definition _ := hasDecEq.Build Byte.byte byte_eqP.

Module Serial.

(** The bytes [b'/'], [b','], [b';'] and [b'4']. *)
Definition byte_slash : Byte.byte := Byte.x2f.
Definition byte_comma : Byte.byte := Byte.x2c.
Definition byte_semicolon : Byte.byte := Byte.x3b.
Definition byte_4 : Byte.byte := Byte.x34.

(** The exceptions of this function, and how a run of it ends: with a
    value, with an exception, or waiting for a byte that does not come. *)
Variant pyexn : Type :=
  | TypeError               (* operands that do not fit *)
  | StructError             (* [struct.error]: a buffer of the wrong size *)
  | IndexOutOfBounds.       (* [IndexError] *)

Variant outcome (A : Type) : Type :=
  | Returned of A
  | Raised of pyexn
  | Blocked.

Arguments Raised {A} e.
Arguments Blocked {A}.

Definition obind {A B : Type} (r : outcome A) (k : A -> outcome B) :
    outcome B :=
  match r with
  | Returned a => k a
  | Raised e => Raised e
  | Blocked => Blocked
  end.

Notation "'run' x <- r ; k" := (obind r (fun x => k))
  (at level 200, x pattern, r at level 100, k at level 200,
   format "'[v' 'run'  x  <-  r ; '/' k ']'").

(** What the name [buf] is bound to while the function waits for the
    header: a list of [bytes] objects, a [bytes] object, or an
    integer. *)
Variant pyobj : Type :=
  | PyList of seq (seq Byte.byte)
  | PyBytes of seq Byte.byte
  | PyInt of nat.

(** [cmds['STATE'] + ','], encoded: the header [b'4,'] *)
Definition header : seq Byte.byte := [:: byte_4; byte_comma].

(** [buf != tmp], for a [bytes] object [tmp] *)
Definition py_neq (buf : pyobj) (tmp : seq Byte.byte) : bool :=
  if buf is PyBytes b then b != tmp else true.

(** [buf[-1]] *)
Definition py_last (buf : pyobj) : outcome pyobj :=
  match buf with
  | PyList l =>
      if l is [::] then Raised IndexOutOfBounds
      else Returned (PyBytes (last [::] l))
  | PyBytes b =>
      if b is [::] then Raised IndexOutOfBounds
      else Returned (PyInt (Strings.Byte.to_nat (last Byte.x00 b)))
  | PyInt _ => Raised TypeError
  end.

(** [x + c], for a [bytes] object [c] *)
Definition py_add (x : pyobj) (c : seq Byte.byte) : outcome pyobj :=
  if x is PyBytes b then Returned (PyBytes (b ++ c)) else Raised TypeError.

(** The loop [while buf != tmp: c = self.serial.read(); buf = buf[-1]+c];
    what it returns is the rest of the line. *)
Fixpoint wait_header (s : seq Byte.byte) (buf : pyobj) :
    outcome (seq Byte.byte) :=
  match s with
  | [::] => if py_neq buf header then Blocked else Returned [::]
  | c :: s' =>
      if py_neq buf header then
        run x <- py_last buf;
        run buf <- py_add x [:: c];
        wait_header s' buf
      else Returned s
  end.

(** The loop that splits the message into fields: [/] escapes the next
    byte, [,] ends a field and [;] ends the message. *)
Fixpoint read_fields (s : seq Byte.byte) (buf : seq Byte.byte)
    (res : seq (seq Byte.byte)) (escaped : bool) :
    outcome (seq (seq Byte.byte) * seq Byte.byte) :=
  match s with
  | [::] => Blocked
  | c :: s' =>
      if ~~ escaped && (c == byte_slash) then read_fields s' buf res true
      else if ~~ escaped && (c == byte_comma) then
        read_fields s' [::] (rcons res buf) false
      else if ~~ escaped && (c == byte_semicolon) then
        Returned (rcons res buf, s')
      else read_fields s' (rcons buf c) res false
  end.

Section StateFromSerial.

(** The double that [struct.unpack('<d', ri)] reads in eight bytes. *)
Variable unpack_d : seq Byte.byte -> R.

(** [[struct.unpack('<d', ri) for ri in res]] *)
Fixpoint unpack_all (res : seq (seq Byte.byte)) : outcome (seq R) :=
  match res with
  | [::] => Returned [::]
  | ri :: res' =>
      if size ri == 8 then
        run rest <- unpack_all res';
        Returned (unpack_d ri :: rest)
      else Raised StructError
  end.

(** [res[self.state_indices]], for a list of indices *)
Fixpoint take_indices (res : seq R) (idx : seq nat) : outcome (seq R) :=
  match idx with
  | [::] => Returned [::]
  | i :: idx' =>
      if (i < size res)%N then
        run rest <- take_indices res idx';
        Returned (nth 0 res i :: rest)
      else Raised IndexOutOfBounds
  end.

(** [state_from_serial]: the state and the time stamp, and the bytes
    left on the line. *)
Definition state_from_serial (state_indices : seq nat) (s : seq Byte.byte) :
    outcome ((seq R * R) * seq Byte.byte) :=
  match s with
  | [::] => Blocked
  | c :: s =>
      let buf := PyList [:: [:: c]] in
      run s <- wait_header s buf;
      run fr <- read_fields s [::] [::] false;
      let: (res, s) := fr in
      run res <- unpack_all res;
      run state <- take_indices res state_indices;
      Returned ((state, last 0 res), s)
  end.

End StateFromSerial.

(** What the device has to put on the line for [state_from_serial] to
    read the fields [fs]: the separators and the escape character inside
    a field are escaped, the fields are joined by [,], and [;] ends the
    message.  (The sender is not part of the repository.) *)
Definition escape (f : seq Byte.byte) : seq Byte.byte :=
  flatten [seq if b \in [:: byte_slash; byte_comma; byte_semicolon]
               then [:: byte_slash; b] else [:: b] | b <- f].

Fixpoint message (fs : seq (seq Byte.byte)) : seq Byte.byte :=
  match fs with
  | [::] => [:: byte_semicolon]
  | [:: f] => escape f ++ [:: byte_semicolon]
  | f :: fs' => escape f ++ byte_comma :: message fs'
  end.

End Serial.

(** A decoder that reads a field as the number of its first byte, and a
    field of eight bytes that begins with a separator. *)

Module SerialToy.

Definition unpack_d (f : seq Byte.byte) : R :=
  (Strings.Byte.to_nat (head Byte.x00 f))%:R.

Definition field : seq Byte.byte := Serial.byte_comma :: nseq 7 Byte.x00.

End SerialToy.

(** ** [kusanagi/base/Loadable.py] *)

(** Strings compare with [String.eqb]. *)

Lemma string_eqP : Equality.axiom String.eqb.
Proof. by move=> a b; apply: (iffP idP) => /String.eqb_eq. Qed.

HB.instance Definition _ := hasDecEq.Build string string_eqP.

Module Loadable.

(** The exceptions of the registry methods. *)
Variant registry_exn : Type :=
  | AssertionError
  | KeyError.

Variant registry_result (A : Type) : Type :=
  | Returned of A
  | Raised of registry_exn.

Arguments Raised {A} e.

Section Registry.

(** The objects that attributes are bound to, and the types that
    [register_types] is given; [isinstance(value, type_)]. *)
Variable object : Type.
Variable type_ : eqType.
Variable isinstance : object -> type_ -> bool.

(** An instance: [self.__dict__], from attribute names to the objects
    they are bound to, and the contents of the two sets
    [self.registered_keys] and [self.registered_types] (a set is a
    sequence without repetition; the order is the one in which Python
    happens to iterate).  The methods below bind no attribute anew. *)
Record loadable : Type := MkLoadable {
  dict : seq (string * object);
  registered_keys : seq string;
  registered_types : seq type_
}.

(** [d[key]] and [key in d] *)
Fixpoint dict_get (d : seq (string * object)) (key : string) : option object :=
  match d with
  | [::] => None
  | (k, v) :: d' => if String.eqb k key then Some v else dict_get d' key
  end.

(** [name in self.__dict__] *)
Definition has_attr (self : loadable) (name : string) : bool :=
  dict_get (dict self) name.

(** Whether an attribute is bound to an instance of a registered type:
    [any([isinstance(value, type_) for type_ in self.registered_types])]
    for the [value] of the attribute. *)
Definition typed (self : loadable) (name : string) : bool :=
  if dict_get (dict self) name is Some value then
    has (isinstance value) (registered_types self)
  else false.

(** [s.add(x)] and [s.remove(x)] on a set *)
Definition set_add (T : eqType) (s : seq T) (x : T) : seq T :=
  if x \in s then s else rcons s x.

Definition set_remove (T : eqType) (s : seq T) (x : T) : registry_result (seq T) :=
  if x \in s then Returned (rem x s) else Raised KeyError.

(** The argument of the four methods: one value, or a list of them. *)
Variant one_or_list (T : Type) : Type :=
  | One of T
  | List of seq T.

Definition as_list (T : Type) (a : one_or_list T) : seq T :=
  match a with One x => [:: x] | List xs => xs end.

(** The loop of [register]: what it raises, if it does, and the instance
    that it leaves. *)
Fixpoint register_loop (variable_names : seq string) (self : loadable) :
    option registry_exn * loadable :=
  match variable_names with
  | [::] => (None, self)
  | varname :: rest =>
      if dict_get (dict self) varname is Some _ then
        register_loop rest
          (MkLoadable (dict self)
             (set_add (registered_keys self) varname)
             (registered_types self))
      else (Some AssertionError, self)
  end.

Definition register (variable_names : one_or_list string) (self : loadable) :
    option registry_exn * loadable :=
  register_loop (as_list variable_names) self.

Fixpoint unregister_loop (variable_names : seq string) (self : loadable) :
    loadable :=
  match variable_names with
  | [::] => self
  | varname :: rest =>
      unregister_loop rest
        (if varname \in registered_keys self then
           MkLoadable (dict self) (rem varname (registered_keys self))
             (registered_types self)
         else self)
  end.

Definition unregister (variable_names : one_or_list string)
    (self : loadable) : loadable :=
  unregister_loop (as_list variable_names) self.

Definition register_types (types_ : one_or_list type_) (self : loadable) :
    loadable :=
  foldl (fun self t =>
           MkLoadable (dict self) (registered_keys self)
             (set_add (registered_types self) t))
        self (as_list types_).

Fixpoint unregister_types_loop (types_ : seq type_) (self : loadable) :
    option registry_exn * loadable :=
  match types_ with
  | [::] => (None, self)
  | t :: rest =>
      match set_remove (registered_types self) t with
      | Returned s =>
          unregister_types_loop rest
            (MkLoadable (dict self) (registered_keys self) s)
      | Raised e => (Some e, self)
      end
  end.

Definition unregister_types (types_ : one_or_list type_) (self : loadable) :
    option registry_exn * loadable :=
  unregister_types_loop (as_list types_) self.

(** [state[key] = value] on the dictionary under construction *)
Fixpoint dict_set (state : seq (string * object)) (key : string)
    (value : object) : seq (string * object) :=
  match state with
  | [::] => [:: (key, value)]
  | (k, v) :: state' =>
      if String.eqb k key then (k, value) :: state'
      else (k, v) :: dict_set state' key value
  end.

(** The first loop of [get_instance_state], over the registered keys. *)
Fixpoint state_of_keys (self : loadable) (keys : seq string)
    (state : seq (string * object)) : registry_result (seq (string * object)) :=
  match keys with
  | [::] => Returned state
  | key :: keys' =>
      if dict_get (dict self) key is Some value then
        state_of_keys self keys' (dict_set state key value)
      else Raised KeyError
  end.

(** The second loop, over the attributes. *)
Definition state_of_types (self : loadable)
    (state : seq (string * object)) : seq (string * object) :=
  foldl (fun state attr_name =>
           if dict_get (dict self) attr_name is Some value then
             if has (isinstance value) (registered_types self)
             then dict_set state attr_name value else state
           else state)
        state [seq kv.1 | kv <- dict self].

Definition get_instance_state (self : loadable) :
    registry_result (seq (string * object)) :=
  match state_of_keys self (registered_keys self) [::] with
  | Returned state => Returned (state_of_types self state)
  | Raised e => Raised e
  end.

(** A client of an instance: a sequence of calls of the four registry
    methods, each in a [try] block; the instance afterwards. *)
Variant call : Type :=
  | Register of one_or_list string
  | Unregister of one_or_list string
  | RegisterTypes of one_or_list type_
  | UnregisterTypes of one_or_list type_.

Definition after_call (self : loadable) (c : call) : loadable :=
  match c with
  | Register names => (register names self).2
  | Unregister names => unregister names self
  | RegisterTypes types_ => register_types types_ self
  | UnregisterTypes types_ => (unregister_types types_ self).2
  end.

Definition after_calls (self : loadable) (calls : seq call) : loadable :=
  foldl after_call self calls.

End Registry.

End Loadable.

(** An instance with two attributes, bound to the objects [1] and [2],
    of which the second is an instance of the one type there is. *)

Module LoadableToy.

Definition isinstance (value : nat) (t : unit) : bool := value == 2%N.

Definition self : Loadable.loadable nat unit :=
  Loadable.MkLoadable [:: ("a", 1%N); ("b", 2%N)]%string [::] [::].

End LoadableToy.

(** * Properties *)

(** ** [cost.py] *)

Section CostProperties.

Variable D : nat.

Import Cost.

(** C8.  [linear_loss] returns [m_cost = Q^T (mx - target)] and
    [s_cost = Q^T Sx Q], whatever the flag [absolute] is; entry by entry,
    [m_cost j] is the sum over [i] of [Q i j * (mx i - target i)] and
    [s_cost j l] the sum over [i] and [m] of [Q i j * Sx i m * Q m l]. *)
Theorem linear_loss_spec (k : nat) (mx : 'rV[R]_D) (Sx : 'M[R]_D)
    (params : loss_params D k) (absolute : bool) :
  let Q := params_Q params in
  let target := params_target params in
  let: (m_cost, s_cost) := linear_loss mx Sx params absolute in
  [/\ m_cost = (Q^T *m (mx - target)^T)^T,
      s_cost = Q^T *m Sx *m Q,
      forall j, m_cost 0 j = \sum_i Q i j * (mx 0 i - target 0 i) &
      forall j l, s_cost j l = \sum_i \sum_m Q i j * Sx i m * Q m l].
Proof.
rewrite /linear_loss /mat_dot_vec /=; split=> // [j|j l].
  by rewrite !mxE; apply: eq_bigr => i _; rewrite !mxE.
rewrite !mxE; under eq_bigr => m _ do rewrite !mxE big_distrl /=.
rewrite exchange_big /=; apply: eq_bigr => i _; apply: eq_bigr => m _.
by rewrite !mxE.
Qed.

(** C4 (the code fails here).  [quadratic_loss] raises [NameError] on
    every input: the expression of [s_cost] reads the name [deltaiQ],
    which is bound neither in the function nor in the module. *)
Theorem quadratic_loss_raises (mx : 'rV[R]_D) (Sx : 'M[R]_D)
    (params : loss_params D D) :
  quadratic_loss mx Sx params = Err (NameError "deltaiQ").
Proof. by []. Qed.

(** [T.sum] adds up all the entries of a matrix, not its diagonal. *)
Lemma tsum_const_mx1 :
  tsum (const_mx 1 : 'M[R]_2) = 4%:R /\ \tr (const_mx 1 : 'M[R]_2) = 2%:R.
Proof.
rewrite /tsum /mxtrace !big_ord_recl !big_ord0 !mxE !addr0.
by split; ring.
Qed.

End CostProperties.

(** ** [mc_pilco.py] *)

Lemma bind_OkE (A B : Type) (a : A) (k : A -> result B) : bind (Ok a) k = k a.
Proof. by []. Qed.

Lemma bind_Ok (A B : Type) (r : result A) (k : A -> result B) (b : B) :
  bind r k = Ok b -> exists2 a, r = Ok a & k a = Ok b.
Proof. by case: r => //= a kab; exists a. Qed.

Lemma size_add_rows (D : nat) (x y x' : ensemble D) :
  add_rows x y = Ok x' -> size x' = size x.
Proof.
rewrite /add_rows; case: eqP => // exy [<-].
by rewrite size_map size_zip -exy minnn.
Qed.

Lemma size_transpose (A : Type) (a0 : A) (a : seq (seq A)) :
  size (transpose a0 a) = size (head [::] a).
Proof. by rewrite /transpose size_mkseq. Qed.

Lemma column_transpose (A : Type) (a0 : A) (a : seq (seq A)) (n t : nat) :
  all (fun r => size r == n) a -> (t < size a)%N ->
  column a0 t (transpose a0 a) = nth [::] a t.
Proof.
move=> /(all_nthP [::]) san lt_t.
have sz i : (i < size a)%N -> size (nth [::] a i) = n by move/san/eqP.
have sh : size (head [::] a) = n.
  by rewrite -nth0; apply: sz; apply: leq_ltn_trans lt_t.
apply: (@eq_from_nth _ a0); rewrite /column size_map size_transpose sh.
  by rewrite sz.
move=> i lt_i; rewrite (nth_map [::]) ?size_transpose ?sh //.
by rewrite /transpose nth_mkseq ?sh // (nth_map [::]).
Qed.

(** ** Cholesky factorization and reprojection *)

Lemma sqrt_sqr (a : R) : 0 < a -> sqrt a * sqrt a = a.
Proof. by move=> /RltP a0; apply/sqrt_sqrt/Rlt_le. Qed.

Lemma sqrt_neq0 (a : R) : 0 < a -> sqrt a != 0.
Proof.
move=> /RltP a0; apply/eqP => e.
by have := sqrt_lt_R0 _ a0; rewrite e => /Rlt_irrefl.
Qed.

Lemma symmetric_drsubmx (n : nat) (A : 'M[R]_(1 + n)) :
  symmetric A -> symmetric (drsubmx A).
Proof. by rewrite /symmetric => sA; rewrite trmx_drsub sA. Qed.

Lemma symmetric_ursubmx (n : nat) (A : 'M[R]_(1 + n)) :
  symmetric A -> ursubmx A = (dlsubmx A)^T.
Proof. by rewrite /symmetric => sA; rewrite trmx_dlsub sA. Qed.

Lemma choleskyS (n : nat) (A : 'M[R]_(1 + n)) :
  cholesky A =
  if 0 < A 0 0 then
    let l := sqrt (A 0 0) in
    let c := l^-1 *: dlsubmx A in
    do L' <- cholesky (drsubmx A - c *m c^T);
    Ok (block_mx l%:M 0 c L' : 'M[R]_(1 + n))
  else Err LinAlgError.
Proof. by []. Qed.

(** The factor that [cholesky] returns for a symmetric matrix is a
    factor. *)
Lemma cholesky_correct (n : nat) (A L : 'M[R]_n) :
  symmetric A -> cholesky A = Ok L -> L *m L^T = A.
Proof.
elim: n A L => [|n IH] A L; first by rewrite [A]flatmx0 [_ *m _]flatmx0.
rewrite -[n.+1]/(1 + n)%N in A L * => sA.
rewrite choleskyS; case: ifP => // a0; cbv zeta.
set l := sqrt _; set c := l^-1 *: _.
case E: cholesky => [L'|] //= [<-].
have l0 : l != 0 by apply: sqrt_neq0.
have sC : symmetric (drsubmx A - c *m c^T).
  rewrite /symmetric linearB /= trmx_mul trmxK.
  by rewrite (symmetric_drsubmx sA).
rewrite (tr_block_mx l%:M) tr_scalar_mx !trmx0 mulmx_block.
rewrite (IH _ _ sC E) !mulmx0 !mul0mx !addr0 addrC subrK.
rewrite -scalar_mxM sqrt_sqr // mul_scalar_mx mul_mx_scalar.
rewrite -linearZ /= !scalerA divff // !scale1r.
rewrite -(symmetric_ursubmx sA) -[RHS]submxK; congr block_mx.
by apply/matrixP=> i j; rewrite !ord1 !mxE lshift0 eqxx mulr1n.
Qed.

Section Reprojection.

Variable D : nat.

Implicit Types (x z : ensemble D) (m : 'rV[R]_D) (M : 'M[R]_D).



Lemma sum_reprojected m M z :
  \sum_(r <- add_row m (dot_rows z M)) r =
  m *+ size z + (\sum_(r <- z) r) *m M.
Proof.
rewrite /add_row /dot_rows -map_comp big_map /= big_split /=.
by rewrite big_const_seq count_predT iter_addr_0 -mulmx_suml.
Qed.

Lemma gram_reprojected m M z :
  gram (add_row m (dot_rows z M)) =
  (m^T *m m) *+ size z + m^T *m (\sum_(r <- z) r) *m M
  + M^T *m (\sum_(r <- z) r)^T *m m + M^T *m gram z *m M.
Proof.
rewrite /gram /add_row /dot_rows -map_comp big_map /=.
under eq_bigr => r _.
  rewrite [(_ + _)^T]linearD /= trmx_mul mulmxDl !mulmxDr -!addrA.
  rewrite (mulmxA m^T r M) (mulmxA (M^T *m r^T) r M) -(mulmxA M^T r^T r).
  over.
rewrite !big_split /= big_const_seq count_predT iter_addr_0 -!addrA.
rewrite -mulmx_suml -mulmx_sumr -[in X in _ + (_ + (X + _))]mulmx_suml.
by rewrite -mulmx_sumr -mulmx_suml -mulmx_sumr [(\sum_(r <- z) r)^T]raddf_sum.
Qed.

Lemma natr_size_neq0 z : (0 < size z)%N -> (size z)%:R != 0 :> R.
Proof. by move=> z0; rewrite pnatr_eq0 -lt0n. Qed.

Lemma mean_reprojected m M z :
  (0 < size z)%N ->
  mean0 (add_row m (dot_rows z M)) = m + mean0 z *m M.
Proof.
move=> z0; rewrite /mean0 sum_reprojected /add_row /dot_rows !size_map.
rewrite scalerDr -scaler_nat scalerA mulVf ?natr_size_neq0 // scale1r.
by rewrite -scalemxAl.
Qed.

Lemma cov_reprojected_algebra (n : nat) (m s : 'rV[R]_D) (M G : 'M[R]_D) :
  n%:R != 0 :> R ->
  n%:R^-1 *: ((m^T *m m) *+ n + m^T *m (n%:R *: s) *m M
              + M^T *m (n%:R *: s)^T *m m + M^T *m G *m M)
    - (m + s *m M)^T *m (m + s *m M) =
  M^T *m (n%:R^-1 *: G - s^T *m s) *m M.
Proof.
move=> N0; rewrite !scalerDr -scaler_nat scalerA mulVf // scale1r.
rewrite [(_ *: s)^T]linearZ /= -!scalemxAr -!scalemxAl !scalerA mulVf //.
rewrite !scale1r [(m + _)^T]linearD /= trmx_mul mulmxDl !mulmxDr.
rewrite !mulmxDl mulmxN mulNmx -scalemxAr -scalemxAl !mulmxA.
by rewrite !addrA opprD addrACA subrr add0r.
Qed.

Lemma cov_reprojected m M z :
  (0 < size z)%N ->
  empirical_cov (add_row m (dot_rows z M)) = M^T *m empirical_cov z *m M.
Proof.
move=> z0; rewrite /empirical_cov /outer mean_reprojected // gram_reprojected.
rewrite {1}/add_row /dot_rows !size_map.
have N0 := natr_size_neq0 z0.
have -> : \sum_(r <- z) r = (size z)%:R *: mean0 z.
  by rewrite /mean0 scalerA divff // scale1r.
exact: cov_reprojected_algebra.
Qed.


End Reprojection.

Section ScanEquations.

Variables (Z O S : Type) (fn : Z -> S -> result (O * S)).

Lemma scan0 z s : scan fn z s 0 = Ok ([::], s).
Proof. by []. Qed.

Lemma scan_nil s n : scan fn [::] s n.+1 = Err ValueError.
Proof. by []. Qed.

Lemma scan_cons z0 z s n :
  scan fn (z0 :: z) s n.+1 =
  do os <- fn z0 s; do rest <- scan fn z os.2 n; Ok (os.1 :: rest.1, rest.2).
Proof. by []. Qed.

Lemma size_scan z s n r : scan fn z s n = Ok r -> size r.1 = n.
Proof.
elim: n z s r => [|n IH] z s r; first by rewrite scan0 => -[<-].
case: z => [|z0 z]; rewrite ?scan_nil ?scan_cons //.
case: (fn z0 s) => //= os; case E: scan => [rest|] //= [<-] /=.
by rewrite (IH _ _ _ E).
Qed.

End ScanEquations.

Section McPilcoProperties.

Variables D Da U : nat.
Variable rstate : Type.
Variable gTrig : ensemble D -> ensemble Da.
Variable pol_evaluate : bool -> ensemble Da -> rstate -> ensemble U * rstate.
Variable dyn_predict :
  bool -> ensemble (Da + U) -> rstate -> (ensemble D * ensemble D) * rstate.
Variable cost_moments : 'rV[R]_D -> 'M[R]_D -> R * R.
Variable cost_particles : ensemble D -> seq R.

Local Notation propagate_particles :=
  (propagate_particles gTrig pol_evaluate dyn_predict).
Local Notation step_rollout :=
  (step_rollout gTrig pol_evaluate dyn_predict cost_moments cost_particles).
Local Notation rollout :=
  (rollout gTrig pol_evaluate dyn_predict cost_moments cost_particles).
Local Notation particle_step := (particle_step gTrig pol_evaluate dyn_predict).
Local Notation particle_trace :=
  (particle_trace gTrig pol_evaluate dyn_predict).
Local Notation undiscounted_mean_costs :=
  (undiscounted_mean_costs gTrig pol_evaluate dyn_predict cost_moments).
Local Notation mean_cost := (mean_cost cost_moments).
Local Notation discounted := (discounted cost_moments cost_particles).

(** [step_rollout] is [particle_step] with the costs of the raw ensemble,
    scaled by the current discount. *)
Lemma step_rollout_particle_step resample iid gamma0 z x gamma rs :
  step_rollout resample iid gamma0 z (x, gamma, rs) =
  do st <- particle_step resample iid z (x, rs);
  Ok ((gamma * mean_cost st.1.1, scale_seq gamma (cost_particles st.1.1),
       st.1.2),
      (st.2.1, gamma * gamma0, st.2.2)).
Proof.
rewrite /step_rollout /particle_step /=.
case: propagate_particles => //= -[[x_next sn] rs'] /=.
rewrite /reproject /mean_cost /empirical_cov /empirical_mean.
by case: resample => //=; case: cholesky.
Qed.

(** The scan of [rollout] along the particle trace. *)
Lemma scan_step_rollout resample iid gamma0 z x gamma rs H :
  scan (step_rollout resample iid gamma0) z (x, gamma, rs) H =
  do tr <- particle_trace resample iid z x rs H;
  Ok (discounted gamma0 gamma tr.1, (tr.2.1, gamma * gamma0 ^+ H, tr.2.2)).
Proof.
rewrite /particle_trace.
elim: H z x gamma rs => [|H IH] z x gamma rs.
  by rewrite !scan0 /= expr0 mulr1.
case: z => [|z0 z]; rewrite ?scan_nil ?scan_cons //.
rewrite step_rollout_particle_step.
case: particle_step => //= -[[raw kept] [x' rs']] /=.
rewrite IH; case: scan => //= -[tr [xf rsf]] /=.
by rewrite exprS mulrA.
Qed.

Lemma size_particle_trace resample iid z x rs H tr :
  particle_trace resample iid z x rs H = Ok tr -> size tr.1 = H.
Proof. exact: size_scan. Qed.

Lemma nth_discounted gamma0 gamma tr t p0 :
  (t < size tr)%N ->
  nth (0, [::], [::]) (discounted gamma0 gamma tr) t =
  (gamma * gamma0 ^+ t * mean_cost (nth p0 tr t).1,
   scale_seq (gamma * gamma0 ^+ t) (cost_particles (nth p0 tr t).1),
   (nth p0 tr t).2).
Proof.
elim: tr gamma t => [|p tr IH] gamma [|t] //=; first by rewrite !expr0 !mulr1.
by rewrite ltnS => /IH ->; rewrite exprS !mulrA.
Qed.

Lemma size_discounted gamma0 gamma tr :
  size (discounted gamma0 gamma tr) = size tr.
Proof. by elim: tr gamma => //= p tr IH gamma; rewrite IH. Qed.


Lemma rollout_particle_trace x0 H gamma0 resample iid z rs :
  rollout x0 H gamma0 resample iid z rs =
  do tr <- particle_trace resample iid z x0 rs H;
  let outs := discounted gamma0 gamma0 tr.1 in
  Ok ([seq o.1.1 | o <- outs], transpose 0 [seq o.1.2 | o <- outs],
      transpose 0 [seq o.2 | o <- outs], tr.2.2).
Proof.
rewrite /rollout scan_step_rollout.
by case: particle_trace => //= -[tr [xf rsf]].
Qed.

Lemma map_discounted_mcosts gamma0 gamma tr t :
  (t < size tr)%N ->
  nth 0 [seq o.1.1 | o <- discounted gamma0 gamma tr] t =
  gamma * gamma0 ^+ t * nth 0 [seq mean_cost p.1 | p <- tr] t.
Proof.
move=> lt_t; rewrite (nth_map (0, [::], [::])) ?size_discounted //.
by rewrite (nth_discounted _ _ ([::], [::])) // (nth_map ([::], [::])).
Qed.

(** C1.  Whenever the particle dynamics go through (no shape mismatch, no
    failed factorization) and give the undiscounted mean costs [c],
    [rollout] returns, with [H] mean costs, and for every step [t < H]
    its mean cost is [gamma0 ^ (t + 1) * c_t]: the first step is scaled
    by [gamma0] itself, each later one by [gamma0] more. *)
Theorem rollout_discount x0 H gamma0 resample iid z rs c :
  undiscounted_mean_costs resample iid z x0 rs H = Ok c ->
  exists mean_costs costs trajectories updts,
    [/\ rollout x0 H gamma0 resample iid z rs =
          Ok (mean_costs, costs, trajectories, updts),
        size mean_costs = H, size c = H &
        forall t, (t < H)%N ->
          nth 0 mean_costs t = gamma0 ^+ t.+1 * nth 0 c t].
Proof.
rewrite /undiscounted_mean_costs rollout_particle_trace.
case E: particle_trace => [tr|] //= [<-].
have sz := size_particle_trace E.
do 4![eexists]; split; first by [].
- by rewrite size_map size_discounted.
- by rewrite size_map.
by move=> t lt_t; rewrite map_discounted_mcosts ?sz // exprS.
Qed.


(** C7.  When the policy returns one control per particle and the
    dynamics model one change of state per particle, [propagate_particles]
    returns [x + delta_x] (row [i] is [x_i + delta_x_i], and there are as
    many rows as in [x]) together with the noise scale of the model,
    unchanged; [u] is the policy on the angle-augmented ensemble and
    [(delta_x, sn_x)] the prediction of the model on the rows of the
    augmented ensemble followed by those of [u].  It touches no state but
    the one that the two collaborators thread. *)
Theorem propagate_particles_spec x iid rs u rs1 delta_x sn_x rs2 :
  pol_evaluate iid (gTrig x) rs = (u, rs1) ->
  size u = size (gTrig x) ->
  dyn_predict iid [seq row_mx p.1 p.2 | p <- zip (gTrig x) u] rs1 =
    (delta_x, sn_x, rs2) ->
  size delta_x = size x ->
  exists x_next,
    [/\ propagate_particles x iid rs = Ok (x_next, sn_x, rs2),
        size x_next = size x &
        forall i, (i < size x)%N ->
          nth 0 x_next i = nth 0 x i + nth 0 delta_x i].
Proof.
move=> epol su edyn sd; exists [seq p.1 + p.2 | p <- zip x delta_x].
have sz : size (zip x delta_x) = size x by rewrite size_zip sd minnn.
split; last 1 first.
- by move=> i lt_i; rewrite (nth_map (0, 0)) ?sz // nth_zip.
- by rewrite /propagate_particles epol /concatenate1 su eqxx /= edyn /add_rows
    sd eqxx.
by rewrite size_map.
Qed.

Lemma size_propagate_particles x iid rs x_next sn rs' :
  propagate_particles x iid rs = Ok (x_next, sn, rs') -> size x_next = size x.
Proof.
rewrite /propagate_particles; case: pol_evaluate => u rs1.
case: concatenate1 => //= xu; case: dyn_predict => -[delta_x sn_x] rs2.
by case E: add_rows => [x'|] //= [<- _ _]; apply: size_add_rows E.
Qed.

Lemma size_reproject resample (z x_next kept : ensemble D) :
  reproject resample z x_next = Ok kept ->
  size kept = if resample then size z else size x_next.
Proof.
rewrite /reproject; case: resample; last by case=> <-.
by case: cholesky => //= L [<-]; rewrite /add_row /dot_rows !size_map.
Qed.

(** Every ensemble of a trace has as many rows as the initial one. *)
Lemma particle_trace_sizes (resample : bool) iid z x rs H tr :
  (resample -> all (fun zt => size zt == size x) (take H z)) ->
  particle_trace resample iid z x rs H = Ok tr ->
  all (fun p => (size p.1 == size x) && (size p.2 == size x)) tr.1.
Proof.
rewrite /particle_trace.
elim: H z x rs tr => [|H IH] z x rs tr; first by rewrite scan0 => _ [<-].
case: z => [|z0 z]; rewrite ?scan_nil ?scan_cons // => sz.
rewrite /particle_step /=.
case Ep: propagate_particles => [[[x_next sn] rs']|] //=.
case Er: reproject => [kept|] //=.
case Es: scan => [rest|] //= [<-] /=.
have s_next := size_propagate_particles Ep.
have s_kept : size kept = size x.
  rewrite (size_reproject Er); case: (resample) sz => // /(_ isT) /=.
  by case/andP=> /eqP.
rewrite s_next s_kept !eqxx /= -s_kept; apply: IH Es => r.
by move: (sz r); rewrite /= s_kept => /andP[].
Qed.

(** The ensembles of a rollout, step by step, and the columns of
    [trajectories]. *)
Lemma rollout_trace_columns x0 H gamma0 (resample : bool) iid z rs
    mean_costs costs trajectories updts :
  (resample -> all (fun zt => size zt == size x0) (take H z)) ->
  rollout x0 H gamma0 resample iid z rs =
    Ok (mean_costs, costs, trajectories, updts) ->
  exists2 tr, particle_trace resample iid z x0 rs H = Ok tr &
    forall t, (t < H)%N ->
      let p := nth ([::], [::]) tr.1 t in
      [/\ size p.1 = size x0, size p.2 = size x0 &
          column 0 t trajectories = p.2].
Proof.
move=> sz; rewrite rollout_particle_trace.
case E: particle_trace => [tr|] //= [_ _ <- _]; exists tr => // t lt_t.
have sH := size_particle_trace E.
have /(all_nthP ([::], [::])) st := particle_trace_sizes sz E.
have /andP[/eqP s1 /eqP s2] : (size (nth ([::], [::]) tr.1 t).1 == size x0)
    && (size (nth ([::], [::]) tr.1 t).2 == size x0) by apply: st; rewrite sH.
split=> //; rewrite (@column_transpose _ _ _ (size x0)).
- apply/(all_nthP [::]) => i; rewrite size_map size_discounted => lt_i.
  rewrite (nth_map (0, [::], [::])) ?size_discounted //.
  rewrite (nth_discounted _ _ ([::], [::])) //=.
  by have /andP[_] := st i lt_i.
- by rewrite size_map size_discounted sH.
rewrite (nth_map (0, [::], [::])) ?size_discounted ?sH //.
by rewrite (nth_discounted _ _ ([::], [::])) ?sH.
Qed.

(** C9.  In a rollout over [H] steps from [n] particles (with noise
    slices of [n] rows when [resample] is set), the ensemble that every
    step propagates and the ensemble that it keeps, reprojected or not,
    have [n] rows; the kept one is column [t] of [trajectories]. *)
Theorem particle_count_invariant x0 H gamma0 (resample : bool) iid z rs
    mean_costs costs trajectories updts :
  (resample -> all (fun zt => size zt == size x0) (take H z)) ->
  rollout x0 H gamma0 resample iid z rs =
    Ok (mean_costs, costs, trajectories, updts) ->
  exists2 tr, particle_trace resample iid z x0 rs H = Ok tr &
    forall t, (t < H)%N ->
      let p := nth ([::], [::]) tr.1 t in
      [/\ size p.1 = size x0, size p.2 = size x0 &
          column 0 t trajectories = p.2].
Proof. exact: rollout_trace_columns. Qed.


Lemma particle_trace_reproject (resample : bool) iid z x rs H tr t :
  particle_trace resample iid z x rs H = Ok tr -> (t < H)%N ->
  let p := nth ([::], [::]) tr.1 t in
  reproject resample (nth [::] z t) p.1 = Ok p.2.
Proof.
rewrite /particle_trace.
elim: H z x rs tr t => [|H IH] z x rs tr t //.
case: z => [|z0 z]; rewrite ?scan_nil ?scan_cons //.
rewrite {1}/particle_step /=.
case Ep: propagate_particles => [[[x_next sn] rs']|] //=.
case Er: reproject => [kept|] //=.
case Es: scan => [rest|] //= [<-] /=.
by case: t => [|t] //=; rewrite ltnS; apply: IH Es.
Qed.

(** With resampling: what [rollout] returns about step [t], from the
    ensemble [x_next] that the step propagates. *)
Lemma rollout_resample_outputs x0 H gamma0 iid z rs
    mean_costs costs trajectories updts :
  (forall x, size (cost_particles x) = size x) ->
  all (fun zt => size zt == size x0) (take H z) ->
  rollout x0 H gamma0 true iid z rs =
    Ok (mean_costs, costs, trajectories, updts) ->
  exists2 tr, particle_trace true iid z x0 rs H = Ok tr &
    forall t, (t < H)%N ->
      let x_next := (nth ([::], [::]) tr.1 t).1 in
      exists2 L, cholesky (empirical_cov x_next) = Ok L &
        [/\ column 0 t trajectories =
              add_row (empirical_mean x_next) (dot_rows (nth [::] z t) L^T),
            nth 0 mean_costs t = gamma0 ^+ t.+1 * mean_cost x_next &
            column 0 t costs =
              scale_seq (gamma0 ^+ t.+1) (cost_particles x_next)].
Proof.
move=> scp sz E.
have [tr Etr inv] := rollout_trace_columns (fun=> sz) E.
exists tr => // t lt_t /=; have [s1 s2 ->] := inv t lt_t.
have sH := size_particle_trace Etr.
have := particle_trace_reproject Etr lt_t; rewrite /reproject /=.
case EL: cholesky => [L|] //= [<-]; exists L => //.
move: E; rewrite rollout_particle_trace Etr /= => -[<- <- _ _].
split=> //; first by rewrite map_discounted_mcosts ?sH // (nth_map ([::], [::]))
  ?sH // exprS.
rewrite (@column_transpose _ _ _ (size x0)).
- apply/(all_nthP [::]) => i; rewrite size_map size_discounted => lt_i.
  rewrite (nth_map (0, [::], [::])) ?size_discounted //.
  rewrite (nth_discounted _ _ ([::], [::])) //= /scale_seq size_map scp.
  by rewrite sH in lt_i; have [-> _ _] := inv i lt_i.
- by rewrite size_map size_discounted sH.
rewrite (nth_map (0, [::], [::])) ?size_discounted ?sH //.
by rewrite (nth_discounted _ _ ([::], [::])) ?sH //= exprS.
Qed.



End McPilcoProperties.

(** ** The one-dimensional instance, evaluated *)

Section ToyRun.

Import Toy.

Local Notation propagate_particles :=
  (propagate_particles gTrig pol_evaluate dyn_predict).
Local Notation particle_step := (particle_step gTrig pol_evaluate dyn_predict).
Local Notation particle_trace :=
  (particle_trace gTrig pol_evaluate dyn_predict).
Local Notation rollout :=
  (rollout gTrig pol_evaluate dyn_predict cost_moments cost_particles).
Local Notation undiscounted_mean_costs :=
  (undiscounted_mean_costs gTrig pol_evaluate dyn_predict cost_moments).
Local Notation mean_cost := (mean_cost cost_moments).
Local Notation step_rollout :=
  (step_rollout gTrig pol_evaluate dyn_predict cost_moments cost_particles).

Lemma add_rows_zeros (D : nat) (A : Type) (x : ensemble D) (y : seq A) :
  size y = size x -> add_rows x [seq 0 | _ <- y] = Ok x.
Proof.
move=> sy; rewrite /add_rows size_map sy eqxx; congr Ok.
elim: x y sy => [|a x IH] [|b y] //= [sy].
by rewrite addr0 IH.
Qed.

Lemma toy_propagate_particles (x : ensemble 1) iid rs :
  propagate_particles x iid rs = Ok (x, [seq 0 | _ <- x], rs).
Proof.
rewrite /propagate_particles /gTrig /pol_evaluate /concatenate1 eqxx /=.
rewrite add_rows_zeros ?size_map ?size_zip ?minnn //=.
congr (Ok (_, _, _)); rewrite -map_comp.
by elim: x => //= a x ->.
Qed.

Lemma vec1D a b : vec1 a + vec1 b = vec1 (a + b).
Proof. by rewrite /vec1 -raddfD. Qed.

Lemma vec1M a b : vec1 a *m vec1 b = vec1 (a * b).
Proof. by rewrite /vec1 -scalar_mxM. Qed.

Lemma vec1Z a b : a *: vec1 b = vec1 (a * b).
Proof. by rewrite /vec1 scale_scalar_mx. Qed.

Lemma vec1T a : (vec1 a)^T = vec1 a.
Proof. by rewrite /vec1 tr_scalar_mx. Qed.

Lemma vec1E a : vec1 a 0 0 = a.
Proof. by rewrite /vec1 mxE eqxx mulr1n. Qed.

Lemma vec1_sum (s : seq R) : \sum_(r <- ens1 s) r = vec1 (\sum_(a <- s) a).
Proof.
rewrite /ens1 big_map; elim: s => [|a s IH].
  by rewrite !big_nil /vec1 raddf0.
by rewrite !big_cons IH vec1D.
Qed.

Lemma mean0_ens1 s :
  mean0 (ens1 s) = vec1 ((size s)%:R^-1 * \sum_(a <- s) a).
Proof. by rewrite /mean0 vec1_sum vec1Z /ens1 size_map. Qed.

Lemma gram_ens1 s : gram (ens1 s) = vec1 (\sum_(a <- s) a ^+ 2).
Proof.
rewrite /gram /ens1 big_map; elim: s => [|a s IH].
  by rewrite !big_nil /vec1 raddf0.
by rewrite !big_cons IH vec1T vec1M vec1D expr2.
Qed.

Lemma empirical_cov_ens1 s :
  empirical_cov (ens1 s) =
  vec1 ((size s)%:R^-1 * (\sum_(a <- s) a ^+ 2)
        - ((size s)%:R^-1 * \sum_(a <- s) a) ^+ 2).
Proof.
rewrite /empirical_cov /outer gram_ens1 mean0_ens1 vec1T vec1M vec1Z.
by rewrite /ens1 size_map /vec1 -raddfB /= expr2.
Qed.

Lemma cholesky_vec1 a : 0 < a -> cholesky (vec1 a) = Ok (vec1 (sqrt a)).
Proof.
move=> a0; rewrite /cholesky vec1E a0 /=; congr Ok.
apply/matrixP => i j; rewrite !ord1.
have -> : (0 : 'I_(1 + 0)) = lshift 0 0 by apply/val_inj.
apply: etrans (@block_mxEul _ 1 0 1 0 _ _ _ _ _ _) _.
by rewrite /vec1 !mxE.
Qed.

Lemma add_row_dot_rows_ens1 m l s :
  add_row (vec1 m) (dot_rows (ens1 s) (vec1 l)^T) =
  ens1 [seq m + a * l | a <- s].
Proof.
rewrite /add_row /dot_rows /ens1 -!map_comp; apply: eq_map => a /=.
by rewrite vec1T vec1M vec1D.
Qed.

Lemma toy_particle_step_noresample (x z : ensemble 1) iid rs :
  particle_step false iid z (x, rs) = Ok ((x, x), (x, rs)).
Proof. by rewrite /particle_step /= toy_propagate_particles. Qed.

Lemma toy_particle_trace_noresample (x : ensemble 1) z iid rs H :
  (H <= size z)%N ->
  particle_trace false iid z x rs H = Ok (nseq H (x, x), (x, rs)).
Proof.
rewrite /particle_trace; elim: H z => [|H IH] [|z0 z] // lt_H.
by rewrite scan_cons toy_particle_step_noresample /= IH.
Qed.

(** A resampling step on one-dimensional particles with coordinates [s],
    mean [m] and variance [v > 0], with the noise coordinates [zs]. *)
Lemma toy_particle_step_resample s zs iid rs m v :
  (size s)%:R^-1 * (\sum_(a <- s) a) = m ->
  (size s)%:R^-1 * (\sum_(a <- s) a ^+ 2) - m ^+ 2 = v ->
  0 < v ->
  let kept := ens1 [seq m + a * sqrt v | a <- zs] in
  particle_step true iid (ens1 zs) (ens1 s, rs) =
    Ok ((ens1 s, kept), (kept, rs)).
Proof.
move=> em ev v0; rewrite /particle_step /= toy_propagate_particles /=.
rewrite /reproject empirical_cov_ens1 /empirical_mean mean0_ens1 em ev.
by rewrite cholesky_vec1 //= add_row_dot_rows_ens1.
Qed.

Lemma sqrt1 : sqrt 1 = 1.
Proof. exact: sqrt_1. Qed.

Lemma sum_pair (a b : R) (f : R -> R) : \sum_(c <- [:: a; b]) f c = f a + f b.
Proof. by rewrite !big_cons big_nil addr0. Qed.

(** Two resampling steps from the particles [1, -1], with the noise
    slices [2, 0] and [1, 1]. *)
Lemma toy_particle_trace_resample iid rs :
  particle_trace true iid toy_z toy_x0 rs 2 =
  Ok (toy_trace, (ens1 [:: 2%:R; 2%:R], rs)).
Proof.
have k1 : [seq 0 + a * sqrt 1 | a <- [:: 2%:R; 0]] = [:: 2%:R; 0] :> seq R.
  by rewrite /= sqrt1 !add0r mulr1 mul0r.
have k2 : [seq 1 + a * sqrt 1 | a <- [:: 1; 1]] = [:: 2%:R; 2%:R] :> seq R.
  by rewrite /= sqrt1 mulr1.
have s1 := @toy_particle_step_resample [:: 1; -1] [:: 2%:R; 0] iid rs 0 1.
have s2 := @toy_particle_step_resample [:: 2%:R; 0] [:: 1; 1] iid rs 1 1.
rewrite k1 sum_pair /= in s1; rewrite k2 sum_pair /= in s2.
have {}s1 := s1 ltac:(field) ltac:(rewrite sum_pair; field) ltac:(done).
have {}s2 := s2 ltac:(field) ltac:(rewrite sum_pair; field) ltac:(done).
rewrite /particle_trace /toy_z /toy_x0 scan_cons s1.
rewrite bind_OkE [(_, _).2]/= scan_cons s2.
by rewrite bind_OkE scan0.
Qed.

Lemma toy_rollout_resample gamma0 iid rs :
  rollout toy_x0 2 gamma0 true iid toy_z rs =
  Ok (toy_mean_costs gamma0, toy_costs gamma0, toy_trajectories gamma0, rs).
Proof. by rewrite rollout_particle_trace toy_particle_trace_resample. Qed.

Lemma rollout_discount_witness :
  exists mean_costs costs trajectories updts,
    [/\ rollout toy_x0 3 2%:R^-1 false false (nseq 3 toy_x0) tt =
          Ok (mean_costs, costs, trajectories, updts),
        size mean_costs = 3%N,
        size (nseq 3 (mean_cost toy_x0)) = 3%N &
        forall t, (t < 3)%N ->
          nth 0 mean_costs t =
          2%:R^-1 ^+ t.+1 * nth 0 (nseq 3 (mean_cost toy_x0)) t].
Proof.
apply: rollout_discount.
by rewrite /undiscounted_mean_costs toy_particle_trace_noresample ?size_nseq.
Defined.

Lemma propagate_particles_spec_witness :
  exists x_next,
    [/\ propagate_particles toy_x0 false tt =
          Ok (x_next, [:: 0; 0], tt),
        size x_next = size toy_x0 &
        forall i, (i < size toy_x0)%N ->
          nth 0 x_next i = nth 0 toy_x0 i + nth 0 [:: 0; 0] i].
Proof.
by apply: (@propagate_particles_spec _ _ _ _ gTrig pol_evaluate dyn_predict
  toy_x0 false tt toy_x0 tt [:: 0; 0] [:: 0; 0] tt).
Defined.

Lemma particle_count_invariant_witness :
  exists2 tr, particle_trace true false toy_z toy_x0 tt 2 = Ok tr &
    forall t, (t < 2)%N ->
      let p := nth ([::], [::]) tr.1 t in
      [/\ size p.1 = size toy_x0, size p.2 = size toy_x0 &
          column 0 t (toy_trajectories 2%:R^-1) = p.2].
Proof.
apply: (@particle_count_invariant _ _ _ _ gTrig pol_evaluate dyn_predict
  cost_moments cost_particles toy_x0 2 2%:R^-1 true false toy_z tt
  (toy_mean_costs 2%:R^-1) (toy_costs 2%:R^-1)); first by [].
exact: toy_rollout_resample.
Defined.

Lemma vec1_inj : injective vec1.
Proof. by move=> a b /(congr1 (fun v : 'rV[R]_1 => v 0 0)); rewrite !vec1E. Qed.





End ToyRun.

(** C10.  With resampling, column [t] of [trajectories] is the
    reprojected ensemble [mx_t + z_t L_t^T] (the mean and the Cholesky
    factor are those of the ensemble [x_next] that step [t] propagated),
    while the mean cost and the per-particle costs of step [t] are those
    of [x_next] itself; and the two ensembles differ in general: in the
    one-dimensional instance, step [0] records [2, 0] and evaluates the
    costs on [1, -1]. *)
Theorem trajectories_record_reprojection :
  (forall (D Da U : nat) (rstate : Type)
      (gTrig : ensemble D -> ensemble Da)
      (pol_evaluate : bool -> ensemble Da -> rstate -> ensemble U * rstate)
      (dyn_predict : bool -> ensemble (Da + U) -> rstate ->
                     (ensemble D * ensemble D) * rstate)
      (cost_moments : 'rV[R]_D -> 'M[R]_D -> R * R)
      (cost_particles : ensemble D -> seq R)
      x0 H gamma0 iid z rs mean_costs costs trajectories updts,
    (forall x, size (cost_particles x) = size x) ->
    all (fun zt => size zt == size x0) (take H z) ->
    rollout gTrig pol_evaluate dyn_predict cost_moments cost_particles
        x0 H gamma0 true iid z rs =
      Ok (mean_costs, costs, trajectories, updts) ->
    exists2 tr,
      particle_trace gTrig pol_evaluate dyn_predict true iid z x0 rs H = Ok tr &
      forall t, (t < H)%N ->
        let x_next := (nth ([::], [::]) tr.1 t).1 in
        exists2 L, cholesky (empirical_cov x_next) = Ok L &
          [/\ column 0 t trajectories =
                add_row (empirical_mean x_next) (dot_rows (nth [::] z t) L^T),
              nth 0 mean_costs t =
                gamma0 ^+ t.+1 * mean_cost cost_moments x_next &
              column 0 t costs =
                scale_seq (gamma0 ^+ t.+1) (cost_particles x_next)])
  /\
  (let gamma0 : R := 2%:R^-1 in
   [/\ rollout Toy.gTrig Toy.pol_evaluate Toy.dyn_predict Toy.cost_moments
           Toy.cost_particles Toy.toy_x0 2 gamma0 true false Toy.toy_z tt =
         Ok (Toy.toy_mean_costs gamma0, Toy.toy_costs gamma0,
             Toy.toy_trajectories gamma0, tt),
       particle_trace Toy.gTrig Toy.pol_evaluate Toy.dyn_predict
           true false Toy.toy_z Toy.toy_x0 tt 2 =
         Ok (Toy.toy_trace, (Toy.ens1 [:: 2%:R; 2%:R], tt)),
       column 0 0 (Toy.toy_trajectories gamma0) = Toy.ens1 [:: 2%:R; 0] &
       Toy.ens1 [:: 2%:R; 0] <> (nth ([::], [::]) Toy.toy_trace 0).1]).
Proof.
split; first by move=> *; apply: rollout_resample_outputs; eauto.
split; first exact: toy_rollout_resample.
- exact: toy_particle_trace_resample.
- by [].
move=> /= [/vec1_inj /eqP]; rewrite -[1]/(1%:R) eqr_nat.
by [].
Qed.

(** ** [get_loss]: the buffer of common random numbers *)

Section BufferLemmas.

Variable A : Type.

Lemma size_tile (z : seq A) k : size (tile z k) = (k * size z)%N.
Proof.
by rewrite /tile size_flatten /shape map_nseq sumn_nseq mulnC.
Qed.

Lemma ceil_div_bounds H c :
  (0 < c)%N -> (0 < H)%N ->
  ((ceil_div H c).-1 * c < H <= ceil_div H c * c)%N.
Proof.
move=> c0 H0; rewrite /ceil_div.
have [dv|ndv] := boolP (c %| H)%N; rewrite /= ?addn0 ?addn1 /=.
  rewrite divnK // leqnn andbT -{2}(divnK dv) ltn_pmul2r // ltn_predL.
  by rewrite divn_gt0 // dvdn_leq.
rewrite [(H <= _)%N]ltnW ?ltn_ceil // andbT ltn_neqAle leq_trunc_div andbT.
by rewrite -dvdn_eq.
Qed.

Lemma leq_ceil_div H c : (0 < c)%N -> (H <= ceil_div H c * c)%N.
Proof.
move=> c0; case: H => [|H] //.
by have /andP[] := @ceil_div_bounds H.+1 c c0 isT.
Qed.

Lemma fit_horizon_small (z : seq A) H :
  (H <= size z)%N -> fit_horizon z H = take H z.
Proof. by rewrite /fit_horizon ltnNge => ->. Qed.

Lemma fit_horizon_large (z : seq A) H :
  (size z < H)%N -> fit_horizon z H = take H (tile z (ceil_div H (size z))).
Proof. by rewrite /fit_horizon => ->. Qed.

Lemma size_fit_horizon (z : seq A) H :
  (0 < size z)%N -> size (fit_horizon z H) = H.
Proof.
move=> z0; case: (leqP H (size z)) => [le_H|lt_H].
  by rewrite fit_horizon_small // size_takel.
by rewrite fit_horizon_large // size_takel // size_tile leq_ceil_div.
Qed.

End BufferLemmas.

Section DrawLemmas.

Variables (G A : Type) (draw : G -> A * G).

Lemma size_draw_seq k g : size (draw_seq draw k g).1 = k.
Proof.
elim: k g => //= k IH g; case: (draw g) => a g1.
by case E: draw_seq => [rest g2] /=; rewrite -(IH g1) E.
Qed.

Lemma draw_seq_state k g :
  (draw_seq draw k g).2 = iter k (fun g' => (draw g').2) g.
Proof.
elim: k g => // k IH g; rewrite iterSr -IH /=.
by case: (draw g) => a g1 /=; case: draw_seq.
Qed.

End DrawLemmas.

Lemma iter_mul (T : Type) (f : T -> T) (a b : nat) (x : T) :
  iter a (iter b f) x = iter (a * b) f x.
Proof. by elim: a => // a IH; rewrite mulSn iterD /= IH. Qed.

Section GetLossProperties.

Variables D Da U : nat.
Variable rstate : Type.
Variable gTrig : ensemble D -> ensemble Da.
Variable pol_evaluate : bool -> ensemble Da -> rstate -> ensemble U * rstate.
Variable dyn_predict :
  bool -> ensemble (Da + U) -> rstate -> (ensemble D * ensemble D) * rstate.
Variable cost_moments : 'rV[R]_D -> 'M[R]_D -> R * R.
Variable cost_particles : ensemble D -> seq R.
Variables dyn_update pol_update : option (nat -> rstate -> rstate).
Variable mrg_normal : nat -> nat -> rstate -> seq (ensemble D) * rstate.
Variable np_state : Type.
Variable np_normal : np_state -> R * np_state.

Local Notation get_loss :=
  (get_loss gTrig pol_evaluate dyn_predict cost_moments cost_particles
     dyn_update pol_update mrg_normal np_normal).
Local Notation loss_graph :=
  (loss_graph gTrig pol_evaluate dyn_predict cost_moments cost_particles
     mrg_normal).
Local Notation rollout :=
  (rollout gTrig pol_evaluate dyn_predict cost_moments cost_particles).
Local Notation noise := (noise mrg_normal).
Local Notation np_random_normal := (np_random_normal D np_normal).

Lemma np_random_normal_state c n g :
  (np_random_normal c n g).2 =
  iter (c * (n * D)) (fun g' => (np_normal g').2) g.
Proof.
rewrite /np_random_normal draw_seq_state -iter_mul; apply: eq_iter => g1.
rewrite draw_seq_state -iter_mul; apply: eq_iter => g2.
by rewrite /draw_row -draw_seq_state; case: draw_seq.
Qed.

(** C6.  The buffer that [get_loss] draws with [crn] has 100 rows; for
    every horizon [H] an evaluation of the graph fits that buffer to [H]
    and calls [rollout] with the result as its [z] (the initial particles
    come from its first row), a sequence of exactly [H] rows: the first
    [H] rows of the buffer when [H <= 100], and otherwise the first [H]
    rows of [k] copies of it, [k] the ceiling of [H / 100], which are
    [k * 100 >= H] rows. *)
Theorem crn_buffer_fits_horizon n_samples io rp rd avg rs g H :
  let r := get_loss n_samples io rp true rd avg rs g in
  exists2 z, r.1.1.1 = Shared z &
    let zH := fit_horizon z H in
    [/\ size z = 100%N,
        forall mx0 Sx0 gamma rs',
          noise (Shared z) H rs' = (zH, rs') /\
          r.1.1.2 (mx0, Sx0, H, gamma) rs' =
            (do x0 <- initial_particles zH mx0 Sx0;
             do out <- rollout x0 H gamma rp rd zH rs';
             let: (mean_costs, costs, trajectories, updts) := out in
             Ok (if avg
                 then (size mean_costs)%:R^-1 * \sum_(c <- mean_costs) c
                 else \sum_(c <- mean_costs) c,
                 if io then Some (costs, trajectories) else None,
                 updts)),
        size zH = H,
        (H <= 100)%N -> zH = take H z &
        (100 < H)%N ->
          let k := ceil_div H 100 in
          [/\ (k.-1 * 100 < H <= k * 100)%N,
              size (tile z k) = (k * 100)%N &
              zH = take H (tile z k)]].
Proof.
rewrite /get_loss /=; case E: np_random_normal => [z g'] /=.
have sz : size z = 100%N by rewrite -[z]/(z, g').1 -E size_draw_seq.
exists z => //; split=> //.
- by rewrite size_fit_horizon ?sz.
- by move=> le_H; rewrite fit_horizon_small ?sz.
move=> lt_H /=; split; last by rewrite fit_horizon_large sz.
  by rewrite ceil_div_bounds // (leq_trans _ lt_H).
by rewrite size_tile sz.
Qed.

(** What a build with [crn] draws and leaves behind. *)
Lemma get_loss_crn_build n_samples io rp rd avg rs g :
  let r := get_loss n_samples io rp true rd avg rs g in
  let z := (np_random_normal 100 n_samples g).1 in
  [/\ r.1.1.1 = Shared z,
      r.1.1.2 = loss_graph (Shared z) io rp rd avg,
      r.2 = iter (100 * (n_samples * D)) (fun g' => (np_normal g').2) g,
      forall H mx0 Sx0 rs1 rs2,
        (noise (Shared z) H rs1).1 = fit_horizon z H /\
        initial_particles (noise (Shared z) H rs1).1 mx0 Sx0 =
        initial_particles (noise (Shared z) H rs2).1 mx0 Sx0 &
      forall io' rp' rd' avg' rs2,
        (get_loss n_samples io' rp' true rd' avg' rs2 r.2).1.1.1 =
        Shared (np_random_normal 100 n_samples r.2).1].
Proof.
rewrite /get_loss /= -np_random_normal_state.
case E: np_random_normal => [z g'] /=; split=> // io' rp' rd' avg' rs2.
by case: np_random_normal.
Qed.

(** C2 (amended).  With [crn], one build of the graph draws the buffer
    once, from NumPy's generator, which it advances by [100 * n_samples *
    D] draws.  Every evaluation of that graph reads the same buffer,
    whatever the state of the random streams: for the same [H] the same
    noise, and for the same [mx0] and [Sx0] the same initial particles.
    A second build draws its own buffer, from the generator as the first
    build left it. *)
Theorem crn_buffer_drawn_once n_samples io rp rd avg rs g :
  let r := get_loss n_samples io rp true rd avg rs g in
  let z := (np_random_normal 100 n_samples g).1 in
  [/\ r.1.1.1 = Shared z,
      r.1.1.2 = loss_graph (Shared z) io rp rd avg,
      r.2 = iter (100 * (n_samples * D)) (fun g' => (np_normal g').2) g,
      forall H mx0 Sx0 rs1 rs2,
        (noise (Shared z) H rs1).1 = fit_horizon z H /\
        initial_particles (noise (Shared z) H rs1).1 mx0 Sx0 =
        initial_particles (noise (Shared z) H rs2).1 mx0 Sx0 &
      forall io' rp' rd' avg' rs2,
        (get_loss n_samples io' rp' true rd' avg' rs2 r.2).1.1.1 =
        Shared (np_random_normal 100 n_samples r.2).1].
Proof. exact: get_loss_crn_build. Qed.

End GetLossProperties.

(** *** Two builds with the generator that counts *)

Lemma toy_buffer_head c n g :
  exists row rows slices g',
    [/\ np_random_normal 1 Toy.np_normal c.+1 n.+1 g =
          ((row :: rows) :: slices, g') & row 0 0 = g%:R].
Proof.
rewrite /np_random_normal /= /draw_row /=.
case: (draw_seq _ n _) => rows g1; case: (draw_seq _ c _) => slices g2.
by do 4![eexists]; split; first by []; rewrite mxE.
Qed.

Lemma cholesky_1 : cholesky (1%:M : 'M[R]_1) = Ok 1%:M.
Proof. by rewrite -[1%:M]/(Toy.vec1 1) cholesky_vec1 // sqrt1. Qed.

Lemma toy_initial_particles c n g :
  exists2 x0,
    initial_particles
      (fit_horizon (np_random_normal 1 Toy.np_normal c.+1 n.+1 g).1 1)
      0 1%:M = Ok x0 &
    Toy.first_coordinate x0 = g%:R.
Proof.
have [row [rows [slices [g' [-> e]]]]] := toy_buffer_head c n g.
rewrite /initial_particles cholesky_1 /fit_horizon /=.
eexists; first by [].
by rewrite /Toy.first_coordinate /= add0r trmx1 mulmx1.
Qed.

(** The claim C2 as the specification states it fails: with the
    generator that counts, two builds of the same configuration, one
    after the other, hold different buffers and give different initial
    particles for [mx0 = 0], [Sx0 = 1] and [H = 1]. *)
Lemma crn_buffer_counterexample :
  let build :=
    get_loss Toy.gTrig Toy.pol_evaluate Toy.dyn_predict Toy.cost_moments
      Toy.cost_particles None None Toy.mrg_normal Toy.np_normal
      1 false true true false true tt in
  let r1 := build 0%N in
  let r2 := build r1.2 in
  exists z1 z2 x1 x2,
    [/\ r1.1.1.1 = Shared z1 /\ r2.1.1.1 = Shared z2,
        z1 <> z2,
        initial_particles (fit_horizon z1 1) 0 1%:M = Ok x1 /\
        initial_particles (fit_horizon z2 1) 0 1%:M = Ok x2 &
        x1 <> x2].
Proof.
move=> build r1 r2.
have [e1 _ g1 _ e2] := get_loss_crn_build Toy.gTrig Toy.pol_evaluate
  Toy.dyn_predict Toy.cost_moments Toy.cost_particles None None
  Toy.mrg_normal Toy.np_normal 1 false true false true tt 0%N.
have {}g1 : r1.2 = 100%N.
  by rewrite [LHS]g1 mulnC; elim: (100%N) => //= k ->.
have {}e2 : r2.1.1.1 = Shared (np_random_normal 1 Toy.np_normal 100 1 100).1.
  by rewrite -g1; apply: e2.
have [x1 i1 f1] := toy_initial_particles 99 0 0.
have [x2 i2 f2] := toy_initial_particles 99 0 100.
exists (np_random_normal 1 Toy.np_normal 100 1 0).1,
  (np_random_normal 1 Toy.np_normal 100 1 100).1, x1, x2.
have ne : x1 <> x2.
  move=> e; move: f1; rewrite e f2 => /eqP.
  by rewrite eqr_nat.
split=> // ez; apply: ne; move: i1; rewrite ez i2.
by case.
Qed.


(** ** Positive semi-definite matrices *)

Section Determinants.


End Determinants.

Section QuadraticForms.

Lemma psdP (n : nat) (A : 'M[R]_n) : psd A <-> forall v, 0 <= qform A v.
Proof. by []. Qed.

Lemma mx11_tr (X : 'M[R]_1) : X^T = X.
Proof. by apply/matrixP=> i j; rewrite !ord1 mxE. Qed.

Lemma ulsubmx11 (n : nat) (A : 'M[R]_(1 + n)) : ulsubmx A = (A 0 0)%:M.
Proof.
rewrite [LHS]mx11_scalar; congr (_%:M); rewrite !mxE.
by congr (A _ _); apply/val_inj.
Qed.

(** The quadratic form of a symmetric matrix on a row [(t, w)], by the
    blocks of the matrix. *)
Lemma qform_block (n : nat) (A : 'M[R]_(1 + n)) (t : R) (w : 'rV[R]_n) :
  symmetric A ->
  qform A (row_mx t%:M w) =
  A 0 0 * t ^+ 2 + 2%:R * t * (w *m dlsubmx A) 0 0 + qform (drsubmx A) w.
Proof.
move=> sA; rewrite /qform -{1}(submxK A) mul_row_block tr_row_mx mul_row_col.
rewrite (symmetric_ursubmx sA) ulsubmx11 tr_scalar_mx !mulmxDl.
rewrite -!scalar_mxM mul_mx_scalar mul_scalar_mx -scalemxAl.
rewrite -[(dlsubmx A)^T *m w^T]trmx_mul [(w *m dlsubmx A)^T]mx11_tr.
rewrite !mxE eqxx mulr1n -!addrA; congr (_ + _); first by rewrite expr2 mulrCA mulrA.
by rewrite addrA -mulr2n -mulr_natl mulrA.
Qed.



Lemma mx11_sub_scale (Y X : 'M[R]_1) (c : R) :
  (Y - c *: (X *m X)) 0 0 = Y 0 0 - c * (X 0 0 * X 0 0).
Proof. by rewrite !mxE big_ord1. Qed.

(** The Schur complement of the pivot, and what remains of it when the
    pivot is replaced by something larger. *)
Lemma schur_symmetric (n : nat) (A : 'M[R]_(1 + n)) (c : R) :
  symmetric A ->
  symmetric (drsubmx A - c *: (dlsubmx A *m (dlsubmx A)^T)).
Proof.
move=> sA; rewrite /symmetric linearB linearZ /= trmx_mul trmxK.
by rewrite (symmetric_drsubmx sA).
Qed.











End QuadraticForms.

(** ** The saturating loss *)

Lemma exp0 : exp 0 = 1.
Proof. exact: exp_0. Qed.





Section SaturatingLoss.

Import Cost.

Variable D : nat.

Implicit Types (mx target : 'rV[R]_D) (Sx Q : 'M[R]_D).

(** At the target, without uncertainty, the saturating loss is [0], and
    so is its variance. *)
Lemma saturating_loss_at_target Q target :
  quadratic_saturating_loss target 0 (LossParams Q target) = Ok (0, 0).
Proof.
rewrite /quadratic_saturating_loss /= subrr mul0mx scaler0 !addr0.
rewrite /matrix_inverse unitmx1 /= /vec_dot_vec !mul0mx !mxE.
by rewrite mulr0 !oppr0 exp0 det1 sqrt1 !divr1 sqrrN expr1n !subrr.
Qed.



End SaturatingLoss.

Lemma symmetric_scalar (n : nat) (a : R) : symmetric (a%:M : 'M[R]_n).
Proof. by rewrite /symmetric tr_scalar_mx. Qed.

Lemma psd_scalar (n : nat) (a : R) : 0 <= a -> psd (a%:M : 'M[R]_n).
Proof.
move=> a0 v; rewrite mul_mx_scalar -scalemxAl mxE mulr_ge0 //.
by rewrite mxE sumr_ge0 // => i _; rewrite mxE -expr2 sqr_ge0.
Qed.



(** * Further properties of [mc_pilco.py] *)

(** ** [theano.scan] and the noise sequence *)

Section ScanFailures.

Variables (Z O S : Type) (fn : Z -> S -> result (O * S)).


Lemma scan_eq_seq (Z' : Type) (fn' : Z' -> S -> result (O * S)) z z' s n :
  (forall a a' s', fn a s' = fn' a' s') ->
  (n <= size z)%N -> (n <= size z')%N ->
  scan fn z s n = scan fn' z' s n.
Proof.
move=> efn; elim: n z z' s => [|n IH] [|z0 z] [|z0' z'] s //.
rewrite !ltnS !scan_cons => le_n le_n'; rewrite (efn z0 z0').
by case: (fn' z0' s) => //= os; rewrite (IH z z').
Qed.

End ScanFailures.

Section TransposeLemmas.

Variables (A : Type) (a0 : A).

Lemma size_row_transpose (a : seq (seq A)) i :
  (i < size (head [::] a))%N -> size (nth [::] (transpose a0 a) i) = size a.
Proof. by move=> lt_i; rewrite /transpose nth_mkseq // size_map. Qed.

Lemma nth_transpose (a : seq (seq A)) i t :
  (i < size (head [::] a))%N -> (t < size a)%N ->
  nth a0 (nth [::] (transpose a0 a) i) t = nth a0 (nth [::] a t) i.
Proof.
by move=> lt_i lt_t; rewrite /transpose nth_mkseq // (nth_map [::]).
Qed.

End TransposeLemmas.

Section TileLemmas.

Variable A : Type.

Lemma nth_tile (a0 : A) (z : seq A) k t :
  (t < k * size z)%N -> nth a0 (tile z k) t = nth a0 z (t %% size z).
Proof.
rewrite /tile; elim: k t => [|k IH] t //=.
rewrite mulSn nth_cat; case: (ltnP t (size z)) => [lt_t _|le_t lt_t].
  by rewrite modn_small.
rewrite IH ?ltn_subLR //.
by rewrite -{2}(subnK le_t) modnDr.
Qed.

Lemma nth_fit_horizon (a0 : A) (z : seq A) H t :
  (0 < size z)%N -> (t < H)%N ->
  nth a0 (fit_horizon z H) t = nth a0 z (t %% size z).
Proof.
move=> z0 lt_t; case: (leqP H (size z)) => [le_H|lt_H].
  by rewrite fit_horizon_small // nth_take // modn_small // (leq_trans lt_t).
rewrite fit_horizon_large // nth_take // nth_tile //.
exact: leq_trans lt_t (leq_ceil_div _ z0).
Qed.

Lemma fit_horizon_periodic (a0 : A) (z : seq A) H :
  (0 < size z)%N ->
  fit_horizon z H = mkseq (fun t => nth a0 z (t %% size z)) H.
Proof.
move=> z0; apply: (@eq_from_nth _ a0); rewrite size_fit_horizon ?size_mkseq //.
by move=> t lt_t; rewrite nth_fit_horizon // nth_mkseq.
Qed.

Lemma all_fit_horizon (P : pred A) (z : seq A) H :
  all P z -> all P (fit_horizon z H).
Proof.
move=> Pz; rewrite /fit_horizon.
set s := if _ then _ else _.
have : all P s.
  rewrite /s; case: ifP => // _; rewrite /tile.
  by elim: (ceil_div _ _) => //= k IH; rewrite all_cat Pz.
by rewrite -{1}(cat_take_drop H s) all_cat => /andP[].
Qed.

End TileLemmas.

Section RolloutShapes.

Variables D Da U : nat.
Variable rstate : Type.
Variable gTrig : ensemble D -> ensemble Da.
Variable pol_evaluate : bool -> ensemble Da -> rstate -> ensemble U * rstate.
Variable dyn_predict :
  bool -> ensemble (Da + U) -> rstate -> (ensemble D * ensemble D) * rstate.
Variable cost_moments : 'rV[R]_D -> 'M[R]_D -> R * R.
Variable cost_particles : ensemble D -> seq R.

Local Notation propagate_particles :=
  (propagate_particles gTrig pol_evaluate dyn_predict).
Local Notation step_rollout :=
  (step_rollout gTrig pol_evaluate dyn_predict cost_moments cost_particles).
Local Notation rollout :=
  (rollout gTrig pol_evaluate dyn_predict cost_moments cost_particles).
Local Notation particle_trace :=
  (particle_trace gTrig pol_evaluate dyn_predict).
Local Notation discounted := (discounted cost_moments cost_particles).

(** The arrays [costs] and [trajectories] that [rollout] returns, entry by
    entry. *)
Lemma rollout_layout x0 H gamma0 (resample : bool) iid z rs
    mean_costs costs trajectories updts :
  (forall x, size (cost_particles x) = size x) ->
  (resample -> all (fun zt => size zt == size x0) (take H z)) ->
  (0 < H)%N ->
  rollout x0 H gamma0 resample iid z rs =
    Ok (mean_costs, costs, trajectories, updts) ->
  exists2 tr, particle_trace resample iid z x0 rs H = Ok tr &
    [/\ size costs = size x0, size trajectories = size x0 &
        forall i t, (i < size x0)%N -> (t < H)%N ->
          let p := nth ([::], [::]) tr.1 t in
          [/\ size (nth [::] costs i) = H,
              size (nth [::] trajectories i) = H,
              nth 0 (nth [::] costs i) t =
                gamma0 ^+ t.+1 * nth 0 (cost_particles p.1) i &
              nth 0 (nth [::] trajectories i) t = nth 0 p.2 i]].
Proof.
move=> scp sz H0; rewrite rollout_particle_trace.
case E: particle_trace => [tr|] //= [_ <- <- _]; exists tr => //.
have sH := size_particle_trace E.
have /(all_nthP ([::], [::])) st := particle_trace_sizes sz E.
have sp t : (t < H)%N ->
    size (nth ([::], [::]) tr.1 t).1 = size x0 /\
    size (nth ([::], [::]) tr.1 t).2 = size x0.
  by rewrite -sH => /st/andP[/eqP-> /eqP->].
set outs := discounted gamma0 gamma0 tr.1.
have so : size outs = H by rewrite size_discounted.
have no t : (t < H)%N -> nth (0, [::], [::]) outs t =
    (gamma0 ^+ t.+1 * mean_cost cost_moments (nth ([::], [::]) tr.1 t).1,
     scale_seq (gamma0 ^+ t.+1) (cost_particles (nth ([::], [::]) tr.1 t).1),
     (nth ([::], [::]) tr.1 t).2).
  by move=> lt_t; rewrite (nth_discounted _ _ _ _ ([::], [::])) ?sH // exprS.
have hc : size (head [::] [seq o.1.2 | o <- outs]) = size x0.
  rewrite -nth0 (nth_map (0, [::], [::])) ?so // no //= size_map scp.
  by have [-> _] := sp 0%N H0.
have ht : size (head [::] [seq o.2 | o <- outs]) = size x0.
  rewrite -nth0 (nth_map (0, [::], [::])) ?so // no //=.
  by have [_ ->] := sp 0%N H0.
split; rewrite ?size_transpose // => i t lt_i lt_t /=.
rewrite !size_row_transpose ?hc ?ht // !size_map so; split=> //.
  rewrite nth_transpose ?hc ?size_map ?so //.
  rewrite (nth_map (0, [::], [::])) ?so // no //= (nth_map 0) // scp.
  by have [-> _] := sp t lt_t.
rewrite nth_transpose ?ht ?size_map ?so //.
by rewrite (nth_map (0, [::], [::])) ?so // no.
Qed.

End RolloutShapes.

Section DrawAll.

Variables (G A : Type) (draw : G -> A * G) (P : pred A).

Lemma all_draw_seq k g : (forall g', P (draw g').1) -> all P (draw_seq draw k g).1.
Proof.
move=> Pd; elim: k g => //= k IH g.
have := Pd g; case: (draw g) => a g1 /= Pa.
by have := IH g1; case: draw_seq => rest g2 /= ->; rewrite Pa.
Qed.

End DrawAll.

Lemma empirical_cov_single (D : nat) (r : 'rV[R]_D) : empirical_cov [:: r] = 0.
Proof.
rewrite /empirical_cov /gram /outer /mean0 !big_seq1 /= invr1 !scale1r.
by rewrite subrr.
Qed.

Lemma cholesky_nonpositive_pivot (n : nat) (A : 'M[R]_n.+1) :
  A 0 0 <= 0 -> cholesky A = Err LinAlgError.
Proof.
rewrite -[n.+1]/(1 + n)%N in A * => a0.
by rewrite choleskyS ltNge a0.
Qed.

Section RolloutFailures.

Variables D Da U : nat.
Variable rstate : Type.
Variable gTrig : ensemble D.+1 -> ensemble Da.
Variable pol_evaluate : bool -> ensemble Da -> rstate -> ensemble U * rstate.
Variable dyn_predict :
  bool -> ensemble (Da + U) -> rstate ->
  (ensemble D.+1 * ensemble D.+1) * rstate.
Variable cost_moments : 'rV[R]_D.+1 -> 'M[R]_D.+1 -> R * R.
Variable cost_particles : ensemble D.+1 -> seq R.

Local Notation propagate_particles :=
  (propagate_particles gTrig pol_evaluate dyn_predict).
Local Notation rollout :=
  (rollout gTrig pol_evaluate dyn_predict cost_moments cost_particles).

(** X1.  With resampling, a rollout of one particle never returns: the
    empirical covariance of a single row is zero, and the factorization
    of the first step raises. *)
Theorem rollout_single_particle_fails (x0 : ensemble D.+1) H gamma0 iid z rs :
  size x0 = 1%N ->
  (exists e, rollout x0 H.+1 gamma0 true iid z rs = Err e) /\
  (forall z0 z' p, z = z0 :: z' -> propagate_particles x0 iid rs = Ok p ->
     rollout x0 H.+1 gamma0 true iid z rs = Err LinAlgError).
Proof.
move=> s0.
have step z0 z' : rollout x0 H.+1 gamma0 true iid (z0 :: z') rs =
    if propagate_particles x0 iid rs is Err e then Err e else Err LinAlgError.
  rewrite rollout_particle_trace /particle_trace scan_cons /particle_step /=.
  case Ep: propagate_particles => [[[x_next sn] rs']|] //=.
  have := size_propagate_particles Ep; rewrite s0.
  case: x_next {Ep} => [|r [|? ?]] // _.
  rewrite /reproject empirical_cov_single cholesky_nonpositive_pivot //.
  by rewrite mxE.
split; last by move=> z0 z' p -> Ep; rewrite step Ep.
case: z => [|z0 z']; first by exists ValueError.
by rewrite step; case: propagate_particles => [p|e]; eexists.
Qed.

End RolloutFailures.

Section RolloutNoise.

Variables D Da U : nat.
Variable rstate : Type.
Variable gTrig : ensemble D -> ensemble Da.
Variable pol_evaluate : bool -> ensemble Da -> rstate -> ensemble U * rstate.
Variable dyn_predict :
  bool -> ensemble (Da + U) -> rstate -> (ensemble D * ensemble D) * rstate.
Variable cost_moments : 'rV[R]_D -> 'M[R]_D -> R * R.
Variable cost_particles : ensemble D -> seq R.

Local Notation step_rollout :=
  (step_rollout gTrig pol_evaluate dyn_predict cost_moments cost_particles).
Local Notation rollout :=
  (rollout gTrig pol_evaluate dyn_predict cost_moments cost_particles).
Local Notation particle_trace :=
  (particle_trace gTrig pol_evaluate dyn_predict).


(** X3.  Without resampling the noise is not read: two sequences of at least
    [H] slices, of whatever content and shape, give the same rollout. *)
Theorem rollout_noresample_ignores_noise x0 H gamma0 iid z z' rs :
  (H <= size z)%N -> (H <= size z')%N ->
  rollout x0 H gamma0 false iid z rs = rollout x0 H gamma0 false iid z' rs.
Proof.
move=> le_H le_H'; rewrite /rollout.
by rewrite (@scan_eq_seq _ _ _ _ _ (step_rollout false iid gamma0) z z').
Qed.

(** X4.  The layout of what [rollout] returns, for a horizon [H > 0] and [n]
    initial particles: [costs] and [trajectories] have [n] rows of [H]
    entries, batch first and time second; entry [(i, t)] of [costs] is
    the cost of particle [i] of the ensemble that step [t] propagated,
    times [gamma0 ^ (t + 1)], and entry [(i, t)] of [trajectories] is
    particle [i] of the ensemble that step [t] kept. *)
Theorem rollout_batch_major x0 H gamma0 (resample : bool) iid z rs
    mean_costs costs trajectories updts :
  (forall x, size (cost_particles x) = size x) ->
  (resample -> all (fun zt => size zt == size x0) (take H z)) ->
  (0 < H)%N ->
  rollout x0 H gamma0 resample iid z rs =
    Ok (mean_costs, costs, trajectories, updts) ->
  exists2 tr, particle_trace resample iid z x0 rs H = Ok tr &
    [/\ size costs = size x0, size trajectories = size x0 &
        forall i t, (i < size x0)%N -> (t < H)%N ->
          let p := nth ([::], [::]) tr.1 t in
          [/\ size (nth [::] costs i) = H,
              size (nth [::] trajectories i) = H,
              nth 0 (nth [::] costs i) t =
                gamma0 ^+ t.+1 * nth 0 (cost_particles p.1) i &
              nth 0 (nth [::] trajectories i) t = nth 0 p.2 i]].
Proof. exact: rollout_layout. Qed.

End RolloutNoise.

Section InitialParticles.

Variable D : nat.

(** X5.  The initial particles of [get_loss], for a symmetric [Sx0] that
    [cholesky] factors as [L]: one particle per row of the first noise
    slice [z0], of empirical mean [mx0 + mean(z0) L^T] and empirical
    covariance [L cov(z0) L^T]; these are [mx0] and [Sx0] when the slice
    has mean zero and identity covariance. *)
Theorem initial_particles_moments (z0 : ensemble D) z mx0 Sx0 L :
  symmetric Sx0 -> cholesky Sx0 = Ok L -> (0 < size z0)%N ->
  let x0 := add_row mx0 (dot_rows z0 L^T) in
  [/\ initial_particles (z0 :: z) mx0 Sx0 = Ok x0,
      size x0 = size z0,
      empirical_mean x0 = mx0 + empirical_mean z0 *m L^T,
      empirical_cov x0 = L *m empirical_cov z0 *m L^T &
      empirical_mean z0 = 0 -> empirical_cov z0 = 1%:M ->
        empirical_mean x0 = mx0 /\ empirical_cov x0 = Sx0].
Proof.
move=> sS eL z_gt0 x0.
have em : empirical_mean x0 = mx0 + empirical_mean z0 *m L^T.
  by rewrite /empirical_mean mean_reprojected.
have ec : empirical_cov x0 = L *m empirical_cov z0 *m L^T.
  by rewrite cov_reprojected // trmxK.
split=> //; first by rewrite /initial_particles eL.
  by rewrite /x0 /add_row /dot_rows !size_map.
move=> mz cz; rewrite em ec mz cz mul0mx addr0 mulmx1.
by rewrite (cholesky_correct sS eL).
Qed.

End InitialParticles.

Section LossGraph.

Variables D Da U : nat.
Variable rstate : Type.
Variable gTrig : ensemble D -> ensemble Da.
Variable pol_evaluate : bool -> ensemble Da -> rstate -> ensemble U * rstate.
Variable dyn_predict :
  bool -> ensemble (Da + U) -> rstate -> (ensemble D * ensemble D) * rstate.
Variable cost_moments : 'rV[R]_D -> 'M[R]_D -> R * R.
Variable cost_particles : ensemble D -> seq R.
Variables dyn_update pol_update : option (nat -> rstate -> rstate).
Variable mrg_normal : nat -> nat -> rstate -> seq (ensemble D) * rstate.
Variable np_state : Type.
Variable np_normal : np_state -> R * np_state.

Local Notation get_loss :=
  (get_loss gTrig pol_evaluate dyn_predict cost_moments cost_particles
     dyn_update pol_update mrg_normal np_normal).
Local Notation build_rollout :=
  (build_rollout gTrig pol_evaluate dyn_predict cost_moments cost_particles
     dyn_update pol_update mrg_normal np_normal).
Local Notation loss_graph :=
  (loss_graph gTrig pol_evaluate dyn_predict cost_moments cost_particles
     mrg_normal).
Local Notation rollout :=
  (rollout gTrig pol_evaluate dyn_predict cost_moments cost_particles).
Local Notation undiscounted_mean_costs :=
  (undiscounted_mean_costs gTrig pol_evaluate dyn_predict cost_moments).
Local Notation particle_trace :=
  (particle_trace gTrig pol_evaluate dyn_predict).
Local Notation noise := (noise mrg_normal).
Local Notation np_random_normal := (np_random_normal D np_normal).

Lemma size_np_random_normal c n g :
  size (np_random_normal c n g).1 = c /\
  all (fun zt => size zt == n) (np_random_normal c n g).1.
Proof.
split; first exact: size_draw_seq.
by apply: all_draw_seq => g'; rewrite size_draw_seq.
Qed.

(** X6.  For a horizon [H > 0], the loss of the graph is the sum over the
    steps [t < H] of [gamma ^ (t + 1)] times the undiscounted mean cost
    of step [t], divided by [H] when [average] is set; the costs and the
    trajectories come with it exactly when [intermediate_outs] is set. *)
Theorem loss_discounted_sum src io rp rd avg mx0 Sx0 H gamma rs z rs1 x0 c :
  (0 < H)%N ->
  noise src H rs = (z, rs1) ->
  initial_particles z mx0 Sx0 = Ok x0 ->
  undiscounted_mean_costs rp rd z x0 rs1 H = Ok c ->
  exists loss outs updts,
    [/\ loss_graph src io rp rd avg (mx0, Sx0, H, gamma) rs =
          Ok (loss, outs, updts),
        loss = (if avg then H%:R^-1 else 1) *
               \sum_(t < H) gamma ^+ t.+1 * nth 0 c t &
        isSome outs = io].
Proof.
move=> _ en ex0; rewrite /undiscounted_mean_costs /loss_graph en ex0 /=.
rewrite rollout_particle_trace.
case E: particle_trace => [tr|] //= [<-].
have sH := size_particle_trace E.
do 3![eexists]; split; first by [].
  rewrite size_map size_discounted sH.
  have -> : \sum_(c0 <- [seq o.1.1 | o <-
      discounted cost_moments cost_particles gamma gamma tr.1]) c0 =
      \sum_(t < H) gamma ^+ t.+1 * nth 0 [seq mean_cost cost_moments p.1 | p <- tr.1] t.
    rewrite (big_nth 0) size_map size_discounted sH big_mkord.
    by apply: eq_bigr => t _; rewrite map_discounted_mcosts ?sH // exprS.
  by case: avg; rewrite ?mul1r.
by case: io.
Qed.

(** X7.  With [crn], the graph never returns a loss for the horizon [H = 0]:
    the fitted buffer is empty and has no slice [z[0]]. *)
Theorem crn_zero_horizon_fails n_samples io rp rd avg rs g mx0 Sx0 gamma rs1 :
  let r := get_loss n_samples io rp true rd avg rs g in
  exists e, r.1.1.2 (mx0, Sx0, 0%N, gamma) rs1 = Err e.
Proof.
rewrite /get_loss /=; case: np_random_normal => z g' /=.
rewrite /fit_horizon take0 /initial_particles.
by case: cholesky => [L|e] /=; eexists.
Qed.

(** X8.  With [crn] and resampling, an evaluation over [H] steps that
    returns is a rollout on the noise whose slice [t] is slice [t mod 100]
    of the buffer drawn at build time: the ensemble recorded for step [t]
    is [mx_t + z_(t mod 100) L_t^T], with [mx_t] the mean and [L_t] the
    Cholesky factor of the ensemble that the step propagated.  Beyond 100
    steps the noise repeats: step [t + 100] reads the slice of step [t]. *)
Theorem crn_noise_period n_samples rd avg rs g mx0 Sx0 H gamma rs1
    loss costs trajectories updts :
  let r := get_loss n_samples true true true rd avg rs g in
  r.1.1.2 (mx0, Sx0, H, gamma) rs1 =
    Ok (loss, Some (costs, trajectories), updts) ->
  exists2 z, r.1.1.1 = Shared z &
    let slice t := nth [::] z (t %% 100) in
    exists x0 tr,
      [/\ initial_particles (mkseq slice H) mx0 Sx0 = Ok x0,
          particle_trace true rd (mkseq slice H) x0 rs1 H = Ok tr,
          forall t, (t < H)%N ->
            let x_next := (nth ([::], [::]) tr.1 t).1 in
            exists2 L, cholesky (empirical_cov x_next) = Ok L &
              column 0 t trajectories =
                add_row (empirical_mean x_next) (dot_rows (slice t) L^T) &
          forall t, slice (t + 100)%N = slice t].
Proof.
rewrite /get_loss /=.
have [] := size_np_random_normal 100 n_samples g.
case: np_random_normal => z g' /= sz az.
have z0 : (0 < size z)%N by rewrite sz.
have := all_fit_horizon H az.
rewrite (fit_horizon_periodic [::] H z0) sz; set zs := mkseq _ H => azs.
case Ex: initial_particles => [x0|] //=.
case Er: rollout => [[[[mean_costs cs] tj] up]|] //= [_ _ <- _].
exists z => //; exists x0.
have sx0 : all (fun zt : ensemble D => size zt == size x0) (take H zs).
  move: Ex azs; rewrite /initial_particles; case: cholesky => //= L.
  case: (zs) => //= zt zs' [<-] /andP[/eqP s0 azs'].
  rewrite /add_row /dot_rows !size_map s0; apply/allP => y /mem_take.
  by rewrite inE => /orP[/eqP->|/(allP azs')] //; rewrite s0.
have [tr Etr inv] := rollout_trace_columns (fun=> sx0) Er.
exists tr; split=> // [t lt_t /=|t]; last by rewrite modnDr.
have [_ _ ->] := inv t lt_t.
have := particle_trace_reproject Etr lt_t; rewrite /reproject /= nth_mkseq //.
by case: cholesky => //= L [<-]; exists L.
Qed.

(** X9.  The function that [build_rollout] compiles, built with [crn]: when it
    returns, the horizon is positive and the costs and the trajectories
    are among its outputs, with [n_samples] rows of [H] entries each. *)
Theorem build_rollout_shapes n_samples rp rd avg rs g mx0 Sx0 H gamma rs1
    loss outs updts :
  (forall x, size (cost_particles x) = size x) ->
  let r := build_rollout n_samples rp true rd avg rs g in
  r.1.1.2 (mx0, Sx0, H, gamma) rs1 = Ok (loss, outs, updts) ->
  exists costs trajectories,
    [/\ outs = Some (costs, trajectories), (0 < H)%N,
        size costs = n_samples, size trajectories = n_samples &
        forall i, (i < n_samples)%N ->
          size (nth [::] costs i) = H /\ size (nth [::] trajectories i) = H].
Proof.
move=> scp; rewrite /build_rollout /get_loss /=.
have [] := size_np_random_normal 100 n_samples g.
case: np_random_normal => z g' /= sz az.
have := all_fit_horizon H az.
have := @size_fit_horizon _ z H; rewrite sz => /(_ isT).
case: (fit_horizon z H) => [|z0 zH] /=.
  by rewrite /initial_particles; case: cholesky.
move=> sH /andP[/eqP s0 azH].
rewrite {1}/initial_particles; case: cholesky => [L|] //=.
set x0 := add_row _ _.
have sx0 : size x0 = n_samples by rewrite /x0 /add_row /dot_rows !size_map.
case Er: rollout => [[[[mean_costs costs] trajectories] updts']|] //= [_ <- _].
have H0 : (0 < H)%N by rewrite -sH.
have [|tr _ [sc st ss]] := rollout_layout scp _ H0 Er.
  move=> _; rewrite sx0; apply/allP => zt /mem_take /=.
  by rewrite inE => /orP[/eqP->|/(allP azH)] //; rewrite s0.
exists costs, trajectories; split; rewrite -?sx0 // => i lt_i.
by have [] := ss i 0%N lt_i H0.
Qed.

End LossGraph.

(** *** The one-dimensional instance again *)

Lemma toy_size_cost_particles (x : ensemble 1) :
  size (Toy.cost_particles x) = size x.
Proof. by rewrite /Toy.cost_particles size_map. Qed.

Lemma toy_loss_graph_noresample (z0 : ensemble 1) z io avg gamma :
  exists loss costs trajectories,
    loss_graph Toy.gTrig Toy.pol_evaluate Toy.dyn_predict Toy.cost_moments
      Toy.cost_particles Toy.mrg_normal (Shared (z0 :: z)) io false false avg
      (0, 1%:M, 1%N, gamma) tt =
    Ok (loss, if io then Some (costs, trajectories) else None, tt).
Proof.
rewrite /loss_graph /noise /fit_horizon /= /initial_particles cholesky_1 /=.
rewrite rollout_particle_trace toy_particle_trace_noresample //=.
by do 3![eexists].
Qed.

Lemma mx11_vec1 (A : 'M[R]_1) : A = Toy.vec1 (A 0 0).
Proof. by apply/matrixP => i j; rewrite !ord1 vec1E. Qed.

Lemma empirical_cov_nil (D : nat) : empirical_cov ([::] : ensemble D) = 0.
Proof.
by rewrite /empirical_cov /gram /outer /mean0 !big_nil !scaler0 mulmx0 subrr.
Qed.

Lemma variance_size_gt0 (z : ensemble 1) :
  0 < empirical_cov z 0 0 -> (0 < size z)%N.
Proof. by case: z => //; rewrite empirical_cov_nil mxE ltxx. Qed.

Lemma sqrt_gt0 (a : R) : 0 < a -> 0 < sqrt a.
Proof. by move=> /RltP a0; apply/RltP/sqrt_lt_R0. Qed.

Lemma variance_reprojected (z : ensemble 1) (m : 'rV[R]_1) (l : R) :
  0 < empirical_cov z 0 0 -> 0 < l ->
  0 < empirical_cov (add_row m (dot_rows z (Toy.vec1 l)^T)) 0 0.
Proof.
move=> vz l0; rewrite cov_reprojected ?variance_size_gt0 //.
rewrite [empirical_cov z]mx11_vec1 !vec1T !vec1M vec1E.
by rewrite !mulr_gt0.
Qed.

(** Resampling steps of the one-dimensional instance go through as long
    as the particles and the noise slices have a positive variance. *)
Lemma toy_particle_trace_returns iid rs H (z : seq (ensemble 1))
    (x : ensemble 1) :
  (H <= size z)%N ->
  all (fun zt : ensemble 1 => 0 < empirical_cov zt 0 0) z ->
  0 < empirical_cov x 0 0 ->
  exists tr,
    particle_trace Toy.gTrig Toy.pol_evaluate Toy.dyn_predict true iid z x rs H
    = Ok tr.
Proof.
rewrite /particle_trace.
elim: H z x => [|H IH] [|z0 z] x //=; first by exists ([::], (x, rs)).
  by exists ([::], (x, rs)).
rewrite ltnS => le_H /andP[vz0 vz] vx.
rewrite /particle_step /= toy_propagate_particles /= /reproject.
rewrite [empirical_cov x]mx11_vec1 cholesky_vec1 //=.
have vk := variance_reprojected (empirical_mean x) vz0 (sqrt_gt0 vx).
rewrite -/(scan _ _ _ _).
have [tr ->] := IH z _ le_H vz vk.
by eexists.
Qed.

(** The buffer that the generator that counts fills for two particles:
    every slice holds two consecutive numbers, of variance [1/4]. *)
Lemma toy_buffer_variance c g :
  all (fun zt : ensemble 1 => 0 < empirical_cov zt 0 0)
    (np_random_normal 1 Toy.np_normal c 2 g).1.
Proof.
apply: all_draw_seq => g'; rewrite /= /draw_row /=.
have row1 (a : R) : (\row_j nth 0 [:: a] j : 'rV[R]_1) = Toy.vec1 a.
  by apply/matrixP => i j; rewrite !ord1 vec1E mxE.
rewrite !row1 -[[:: _; _]]/(Toy.ens1 [:: g'%:R : R; g'.+1%:R]).
rewrite empirical_cov_ens1 vec1E.
rewrite !sum_pair [size _]/= -[g'.+1%:R]natr1.
have -> : 2%:R^-1 * (g'%:R ^+ 2 + (g'%:R + 1) ^+ 2)
    - (2%:R^-1 * (g'%:R + (g'%:R + 1))) ^+ 2 = 4%:R^-1 :> R by field.
by rewrite invr_gt0 ltr0n.
Qed.

(** With the generator that counts and two particles, the graph with
    resampling returns for every positive horizon. *)
Lemma toy_loss_graph_resample H avg gamma :
  (0 < H)%N ->
  let r :=
    get_loss Toy.gTrig Toy.pol_evaluate Toy.dyn_predict Toy.cost_moments
      Toy.cost_particles None None Toy.mrg_normal Toy.np_normal
      2 true true true false avg tt 0%N in
  exists loss costs trajectories,
    r.1.1.2 (0, 1%:M, H, gamma) tt =
    Ok (loss, Some (costs, trajectories), tt).
Proof.
move=> H0 r.
have [_ er _ _ _] := get_loss_crn_build Toy.gTrig Toy.pol_evaluate
  Toy.dyn_predict Toy.cost_moments Toy.cost_particles None None
  Toy.mrg_normal Toy.np_normal 2 true true false avg tt 0%N.
rewrite {}/r {}er.
have := toy_buffer_variance 100 0.
have [] := @size_np_random_normal 1 _ Toy.np_normal 100 2 0%N.
move: (np_random_normal 1 Toy.np_normal 100 2 0).1 => z sz _ vz.
rewrite /loss_graph /noise.
have := all_fit_horizon H vz.
have := @size_fit_horizon _ z H; rewrite sz => /(_ isT).
case: (fit_horizon z H) => [|z0 zH] /= sH; first by rewrite -sH in H0.
case/andP=> vz0 vzH.
rewrite /initial_particles cholesky_1 /=.
set x0 := add_row _ _.
have vx0 : 0 < empirical_cov x0 0 0.
  by apply: (@variance_reprojected z0 0 1).
rewrite rollout_particle_trace.
have [||[tr [xf []]] ->] :=
  @toy_particle_trace_returns false tt H (z0 :: zH) x0 _ _ vx0.
- by rewrite -sH.
- by rewrite /= vz0.
by do 3![eexists].
Qed.

Lemma rollout_single_particle_fails_witness :
  (exists e,
     rollout Toy.gTrig Toy.pol_evaluate Toy.dyn_predict Toy.cost_moments
       Toy.cost_particles (Toy.ens1 [:: 1]) 1 1 true false
       [:: Toy.ens1 [:: 1]] tt = Err e) /\
  (forall z0 z' p, [:: Toy.ens1 [:: 1]] = z0 :: z' ->
     propagate_particles Toy.gTrig Toy.pol_evaluate Toy.dyn_predict
       (Toy.ens1 [:: 1]) false tt = Ok p ->
     rollout Toy.gTrig Toy.pol_evaluate Toy.dyn_predict Toy.cost_moments
       Toy.cost_particles (Toy.ens1 [:: 1]) 1 1 true false
       [:: Toy.ens1 [:: 1]] tt = Err LinAlgError).
Proof. exact: rollout_single_particle_fails. Defined.


Lemma rollout_noresample_ignores_noise_witness :
  rollout Toy.gTrig Toy.pol_evaluate Toy.dyn_predict Toy.cost_moments
    Toy.cost_particles Toy.toy_x0 2 1 false false Toy.toy_z tt =
  rollout Toy.gTrig Toy.pol_evaluate Toy.dyn_predict Toy.cost_moments
    Toy.cost_particles Toy.toy_x0 2 1 false false [:: [::]; [::]; [::]] tt.
Proof. exact: rollout_noresample_ignores_noise. Defined.

Lemma rollout_batch_major_witness :
  let gamma0 : R := 2%:R^-1 in
  exists2 tr,
    particle_trace Toy.gTrig Toy.pol_evaluate Toy.dyn_predict
      true false Toy.toy_z Toy.toy_x0 tt 2 = Ok tr &
    [/\ size (Toy.toy_costs gamma0) = size Toy.toy_x0,
        size (Toy.toy_trajectories gamma0) = size Toy.toy_x0 &
        forall i t, (i < size Toy.toy_x0)%N -> (t < 2)%N ->
          let p := nth ([::], [::]) tr.1 t in
          [/\ size (nth [::] (Toy.toy_costs gamma0) i) = 2%N,
              size (nth [::] (Toy.toy_trajectories gamma0) i) = 2%N,
              nth 0 (nth [::] (Toy.toy_costs gamma0) i) t =
                gamma0 ^+ t.+1 * nth 0 (Toy.cost_particles p.1) i &
              nth 0 (nth [::] (Toy.toy_trajectories gamma0) i) t =
                nth 0 p.2 i]].
Proof.
apply: (@rollout_batch_major _ _ _ _ Toy.gTrig Toy.pol_evaluate
  Toy.dyn_predict Toy.cost_moments Toy.cost_particles Toy.toy_x0 2 2%:R^-1
  true false Toy.toy_z tt (Toy.toy_mean_costs 2%:R^-1)) => //.
  exact: toy_size_cost_particles.
exact: toy_rollout_resample.
Defined.

Lemma initial_particles_moments_witness :
  let x0 := add_row 0 (dot_rows Toy.toy_x0 (1%:M : 'M[R]_1)^T) in
  [/\ initial_particles [:: Toy.toy_x0] 0 1%:M = Ok x0,
      size x0 = size Toy.toy_x0,
      empirical_mean x0 = 0 + empirical_mean Toy.toy_x0 *m (1%:M : 'M[R]_1)^T,
      empirical_cov x0 =
        (1%:M : 'M[R]_1) *m empirical_cov Toy.toy_x0 *m (1%:M : 'M[R]_1)^T &
      empirical_mean Toy.toy_x0 = 0 -> empirical_cov Toy.toy_x0 = 1%:M ->
        empirical_mean x0 = 0 /\ empirical_cov x0 = 1%:M].
Proof.
apply: (@initial_particles_moments 1 Toy.toy_x0 [::] 0 1%:M 1%:M) => //.
  exact: symmetric_scalar.
exact: cholesky_1.
Defined.

Lemma loss_discounted_sum_witness :
  let x0 := add_row 0 (dot_rows Toy.toy_x0 (1%:M : 'M[R]_1)^T) in
  let c := [:: mean_cost Toy.cost_moments x0] in
  exists loss outs updts,
    [/\ loss_graph Toy.gTrig Toy.pol_evaluate Toy.dyn_predict Toy.cost_moments
          Toy.cost_particles Toy.mrg_normal (Shared [:: Toy.toy_x0])
          true false false true (0, 1%:M, 1%N, 2%:R^-1) tt =
          Ok (loss, outs, updts),
        loss = 1%:R^-1 * \sum_(t < 1) 2%:R^-1 ^+ t.+1 * nth 0 c t &
        isSome outs = true].
Proof.
apply: (@loss_discounted_sum _ _ _ _ Toy.gTrig Toy.pol_evaluate
  Toy.dyn_predict Toy.cost_moments Toy.cost_particles Toy.mrg_normal
  (Shared [:: Toy.toy_x0]) true false false true 0 1%:M 1 2%:R^-1 tt
  [:: Toy.toy_x0] tt) => //.
  by rewrite /initial_particles cholesky_1.
by rewrite /undiscounted_mean_costs toy_particle_trace_noresample.
Defined.

Lemma crn_noise_period_witness :
  let r :=
    get_loss Toy.gTrig Toy.pol_evaluate Toy.dyn_predict Toy.cost_moments
      Toy.cost_particles None None Toy.mrg_normal Toy.np_normal
      2 true true true false true tt 0%N in
  exists loss costs trajectories,
    r.1.1.2 (0, 1%:M, 101%N, 1) tt =
      Ok (loss, Some (costs, trajectories), tt) /\
    exists2 z, r.1.1.1 = Shared z &
      let slice t := nth [::] z (t %% 100) in
      exists x0 tr,
        [/\ initial_particles (mkseq slice 101) 0 1%:M = Ok x0,
            particle_trace Toy.gTrig Toy.pol_evaluate Toy.dyn_predict
              true false (mkseq slice 101) x0 tt 101 = Ok tr,
            forall t, (t < 101)%N ->
              let x_next := (nth ([::], [::]) tr.1 t).1 in
              exists2 L, cholesky (empirical_cov x_next) = Ok L &
                column 0 t trajectories =
                  add_row (empirical_mean x_next) (dot_rows (slice t) L^T) &
            forall t, slice (t + 100)%N = slice t].
Proof.
move=> r.
have [loss [costs [trajectories e]]] :=
  @toy_loss_graph_resample 101 true 1 isT.
exists loss, costs, trajectories; split; first exact: e.
exact: (@crn_noise_period _ _ _ _ Toy.gTrig Toy.pol_evaluate Toy.dyn_predict
  Toy.cost_moments Toy.cost_particles None None Toy.mrg_normal _
  Toy.np_normal 2 false true tt 0%N 0 1%:M 101 1 tt loss costs trajectories
  tt e).
Defined.

Lemma build_rollout_shapes_witness :
  let r :=
    build_rollout Toy.gTrig Toy.pol_evaluate Toy.dyn_predict Toy.cost_moments
      Toy.cost_particles None None Toy.mrg_normal Toy.np_normal
      1 false true false true tt 0%N in
  exists loss outs updts,
    r.1.1.2 (0, 1%:M, 1%N, 1) tt = Ok (loss, outs, updts) /\
    exists costs trajectories,
      [/\ outs = Some (costs, trajectories), (0 < 1)%N,
          size costs = 1%N, size trajectories = 1%N &
          forall i, (i < 1)%N ->
            size (nth [::] costs i) = 1%N /\
            size (nth [::] trajectories i) = 1%N].
Proof.
move=> r.
have [row [rows [slices [g' [ez _]]]]] := @toy_buffer_head 99 0 0%N.
have er : r.1.1.2 = loss_graph Toy.gTrig Toy.pol_evaluate Toy.dyn_predict
    Toy.cost_moments Toy.cost_particles Toy.mrg_normal
    (Shared ((row :: rows) :: slices)) true false false true.
  by rewrite /r /build_rollout /get_loss ez.
have [loss [costs [trajectories e]]] :=
  toy_loss_graph_noresample (row :: rows) slices true true 1.
exists loss, (Some (costs, trajectories)), tt; split; first by rewrite er.
apply: (@build_rollout_shapes _ _ _ _ Toy.gTrig Toy.pol_evaluate
  Toy.dyn_predict Toy.cost_moments Toy.cost_particles None None
  Toy.mrg_normal _ Toy.np_normal 1 false false true tt 0%N 0 1%:M 1 1 tt
  loss _ tt toy_size_cost_particles).
by rewrite -/r er.
Defined.

(** ** A rollout in two parts *)

Section ScanSplit.

Variables (Z O S : Type) (fn : Z -> S -> result (O * S)).

Lemma scan_add z s n1 n2 :
  scan fn z s (n1 + n2) =
  do r1 <- scan fn z s n1;
  do r2 <- scan fn (drop n1 z) r1.2 n2;
  Ok (r1.1 ++ r2.1, r2.2).
Proof.
elim: n1 z s => [|n1 IH] z s.
  by rewrite add0n scan0 bind_OkE drop0 /=; case: scan => //= -[].
case: z => [|z0 z]; rewrite addSn ?scan_nil ?scan_cons //.
case: (fn z0 s) => //= os; rewrite IH.
case: (scan fn z os.2 n1) => //= r1.
by case: (scan fn (drop n1 z) r1.2 n2).
Qed.

End ScanSplit.

Section RolloutSplit.

Variables D Da U : nat.
Variable rstate : Type.
Variable gTrig : ensemble D -> ensemble Da.
Variable pol_evaluate : bool -> ensemble Da -> rstate -> ensemble U * rstate.
Variable dyn_predict :
  bool -> ensemble (Da + U) -> rstate -> (ensemble D * ensemble D) * rstate.
Variable cost_moments : 'rV[R]_D -> 'M[R]_D -> R * R.
Variable cost_particles : ensemble D -> seq R.

Local Notation rollout :=
  (rollout gTrig pol_evaluate dyn_predict cost_moments cost_particles).
Local Notation particle_trace :=
  (particle_trace gTrig pol_evaluate dyn_predict).
Local Notation discounted := (discounted cost_moments cost_particles).

Lemma discounted_cat gamma0 gamma tr1 tr2 :
  discounted gamma0 gamma (tr1 ++ tr2) =
  discounted gamma0 gamma tr1 ++
  discounted gamma0 (gamma * gamma0 ^+ size tr1) tr2.
Proof.
elim: tr1 gamma => [|p tr1 IH] gamma /=; first by rewrite expr0 mulr1.
by rewrite IH exprS mulrA.
Qed.

Lemma mcosts_discounted_scale gamma0 gamma c tr :
  [seq o.1.1 | o <- discounted gamma0 (c * gamma) tr] =
  [seq c * m | m <- [seq o.1.1 | o <- discounted gamma0 gamma tr]].
Proof.
by elim: tr gamma => //= p tr IH gamma; rewrite -!mulrA IH.
Qed.

(** X10.  A rollout of [H1 + H2] steps is a rollout of [H1] steps followed by
    a rollout of [H2] steps from the particles and the random state that
    the first one leaves, on the noise slices that it has not read: the
    mean costs are those of the first, followed by those of the second
    times [gamma0 ^ H1], and the updates are those of the second. *)
Theorem rollout_split x0 H1 H2 gamma0 resample iid z rs tr1 x1 rs1
    mc2 c2 t2 rs2 :
  particle_trace resample iid z x0 rs H1 = Ok (tr1, (x1, rs1)) ->
  rollout x1 H2 gamma0 resample iid (drop H1 z) rs1 = Ok (mc2, c2, t2, rs2) ->
  exists mc1 c1 t1 mc c t,
    [/\ rollout x0 H1 gamma0 resample iid z rs = Ok (mc1, c1, t1, rs1),
        rollout x0 (H1 + H2) gamma0 resample iid z rs = Ok (mc, c, t, rs2) &
        mc = mc1 ++ [seq gamma0 ^+ H1 * m | m <- mc2]].
Proof.
move=> e1; rewrite !rollout_particle_trace e1 /=.
rewrite {2}/particle_trace scan_add -/(particle_trace _ _ _ _ _ _) e1 /=.
rewrite -/(particle_trace _ _ _ _ _ _).
case: particle_trace => [[tr2 [x2 rs2']]|] //= [<- _ _ <-].
do 6![eexists]; split; [by [] | by [] |].
rewrite discounted_cat map_cat (size_particle_trace e1) /=.
by rewrite [gamma0 * _]mulrC mcosts_discounted_scale.
Qed.

End RolloutSplit.

Lemma rollout_split_witness :
  exists mc1 c1 t1 mc c t,
    [/\ rollout Toy.gTrig Toy.pol_evaluate Toy.dyn_predict Toy.cost_moments
          Toy.cost_particles Toy.toy_x0 1 2%:R^-1 false false
          (nseq 3 Toy.toy_x0) tt = Ok (mc1, c1, t1, tt),
        rollout Toy.gTrig Toy.pol_evaluate Toy.dyn_predict Toy.cost_moments
          Toy.cost_particles Toy.toy_x0 (1 + 2) 2%:R^-1 false false
          (nseq 3 Toy.toy_x0) tt = Ok (mc, c, t, tt) &
        mc = mc1 ++
             [seq 2%:R^-1 ^+ 1 * m
                | m <- [seq o.1.1
                          | o <- discounted Toy.cost_moments Toy.cost_particles
                                   2%:R^-1 2%:R^-1
                                   (nseq 2 (Toy.toy_x0, Toy.toy_x0))]]].
Proof.
apply: (@rollout_split _ _ _ _ Toy.gTrig Toy.pol_evaluate Toy.dyn_predict
  Toy.cost_moments Toy.cost_particles Toy.toy_x0 1 2 2%:R^-1 false false
  (nseq 3 Toy.toy_x0) tt (nseq 1 (Toy.toy_x0, Toy.toy_x0)) Toy.toy_x0 tt).
  by rewrite toy_particle_trace_noresample.
by rewrite rollout_particle_trace toy_particle_trace_noresample.
Defined.

(** ** The factorization of the initial covariance *)

Section CholeskyComplete.

Lemma pd_pivot_gt0 (n : nat) (A : 'M[R]_(1 + n)) :
  symmetric A -> positive_definite A -> 0 < A 0 0.
Proof.
move=> sA /(_ (row_mx 1%:M 0)); rewrite qform_block //.
rewrite /qform !mul0mx !mxE expr1n !mulr1 mulr0 !addr0; apply.
apply/eqP => /rowP /(_ (lshift n 0)); rewrite row_mxEl !mxE eqxx.
by move/eqP; rewrite oner_eq0.
Qed.

Lemma pd_schur (n : nat) (A : 'M[R]_(1 + n)) :
  symmetric A -> positive_definite A ->
  positive_definite
    (drsubmx A - (A 0 0)^-1 *: (dlsubmx A *m (dlsubmx A)^T)).
Proof.
move=> sA pA w w0; have a0 := pd_pivot_gt0 sA pA.
rewrite /qform mulmxBr mulmxBl -scalemxAr -scalemxAl (mulmxA w (dlsubmx A)).
rewrite -(mulmxA (w *m dlsubmx A)) -trmx_mul [(w *m dlsubmx A)^T]mx11_tr.
set X := w *m dlsubmx A.
rewrite mx11_sub_scale -/(qform (drsubmx A) w).
set x := X 0 0; set y := qform _ _.
have vn0 : row_mx (- (x / A 0 0))%:M w != 0.
  apply: contra w0 => /eqP e; apply/eqP/rowP => j.
  by move/rowP/(_ (rshift 1 j)): e; rewrite row_mxEr !mxE.
have := pA _ vn0; rewrite qform_block // -/X -/x -/y.
set a := A 0 0 in a0 *; have an0 : a != 0 by rewrite gt_eqF.
have -> : a * (- (x / a)) ^+ 2 + 2%:R * - (x / a) * x + y =
    y - a^-1 * (x * x) by field.
by [].
Qed.

(** [cholesky] returns a factor for every symmetric positive definite
    matrix. *)
Lemma cholesky_positive_definite (n : nat) (A : 'M[R]_n) :
  symmetric A -> positive_definite A -> exists L, cholesky A = Ok L.
Proof.
elim: n A => [|n IH] A; first by exists A.
rewrite -[n.+1]/(1 + n)%N in A * => sA pA.
have a0 := pd_pivot_gt0 sA pA.
rewrite choleskyS a0; cbv zeta.
set l := sqrt _; set c := l^-1 *: _.
have l0 : l != 0 by apply: sqrt_neq0.
have ec : c *m c^T = (A 0 0)^-1 *: (dlsubmx A *m (dlsubmx A)^T).
  rewrite /c linearZ /= -scalemxAl -scalemxAr scalerA -invfM.
  by rewrite sqrt_sqr.
have [||L' ->] := IH (drsubmx A - c *m c^T).
- by rewrite ec; apply: schur_symmetric.
- by rewrite ec; apply: pd_schur.
by eexists.
Qed.

Variable D : nat.

(** X11.  The initial particles of [get_loss] need a positive definite
    initial covariance, and no more: for a symmetric positive definite
    [Sx0] and a first noise slice [z[0]] they are returned, one per row
    of the slice; for a zero [Sx0] (a known initial state), as for every
    [Sx0] whose first diagonal entry is not positive, the factorization
    raises [LinAlgError]. *)
Theorem initial_particles_positive_definite (z0 : ensemble D.+1) z mx0
    (Sx0 : 'M[R]_D.+1) :
  symmetric Sx0 -> positive_definite Sx0 ->
  [/\ exists2 x0, initial_particles (z0 :: z) mx0 Sx0 = Ok x0 &
        size x0 = size z0,
      forall z', initial_particles z' mx0 0 = Err LinAlgError &
      forall z' (S : 'M[R]_D.+1),
        S 0 0 <= 0 -> initial_particles z' mx0 S = Err LinAlgError].
Proof.
move=> sS pS; have [L eL] := cholesky_positive_definite sS pS.
have fail z' (S : 'M[R]_D.+1) :
    S 0 0 <= 0 -> initial_particles z' mx0 S = Err LinAlgError.
  by move=> s0; rewrite /initial_particles cholesky_nonpositive_pivot.
split=> // [|z']; last by apply: fail; rewrite mxE.
exists (add_row mx0 (dot_rows z0 L^T)); first by rewrite /initial_particles eL.
by rewrite /add_row /dot_rows !size_map.
Qed.

End CholeskyComplete.

Lemma positive_definite_1 : positive_definite (1%:M : 'M[R]_1).
Proof.
move=> v v0; rewrite /qform mulmx1 mxE big_ord1 mxE -expr2.
rewrite lt_neqAle sqr_ge0 andbT eq_sym sqrf_eq0.
by apply: contra v0 => /eqP e; apply/eqP/rowP => j; rewrite !ord1 mxE.
Qed.

Lemma initial_particles_positive_definite_witness :
  [/\ exists2 x0,
        initial_particles [:: Toy.toy_x0] (0 : 'rV[R]_1) 1%:M = Ok x0 &
        size x0 = size Toy.toy_x0,
      forall z', initial_particles z' (0 : 'rV[R]_1) 0 = Err LinAlgError &
      forall z' (S : 'M[R]_1),
        S 0 0 <= 0 ->
        initial_particles z' (0 : 'rV[R]_1) S = Err LinAlgError].
Proof.
apply: (@initial_particles_positive_definite 0 Toy.toy_x0 [::] 0 1%:M).
  exact: symmetric_scalar.
exact: positive_definite_1.
Defined.

(** * Further properties of [cost.py] *)

Section MoreLosses.

Import Cost.

Variable D : nat.

Lemma exp_sqr (x : R) : exp x ^+ 2 = exp (2%:R * x).
Proof.
have e : exp (x + x) = exp x * exp x := exp_plus x x.
by rewrite expr2 -e; congr exp; rewrite mulr_natl mulr2n.
Qed.

(** X12.  Without uncertainty ([Sx = 0]) the saturating loss returns, whatever
    the weight matrix, the classical saturating cost
    [1 - exp (- d / 2)] of the squared distance
    [d = (mx - target) Q (mx - target)^T], with variance [0]. *)
Theorem saturating_loss_no_uncertainty (Q : 'M[R]_D) (target mx : 'rV[R]_D) :
  quadratic_saturating_loss mx 0 (LossParams Q target) =
  Ok (1 - exp (- 2%:R^-1 * qform Q (mx - target)), 0).
Proof.
rewrite /quadratic_saturating_loss /= mul0mx scaler0 !addr0.
rewrite /matrix_inverse unitmx1 /= invmx1 mulmx1 det1 sqrt1 !divr1.
rewrite /vec_dot_vec -/(qform Q (mx - target)); set d := qform _ _.
congr (Ok (_, _)); rewrite sqrrN exp_sqr mulrA mulrN divff ?pnatr_eq0 //.
by rewrite mulN1r subrr.
Qed.

(** X13.  The covariance that [linear_loss] returns is a covariance: symmetric
    and positive semi-definite whenever [Sx] is. *)
Theorem linear_loss_covariance (k : nat) (mx : 'rV[R]_D) (Sx : 'M[R]_D)
    (params : loss_params D k) (absolute : bool) :
  symmetric Sx -> psd Sx ->
  let s_cost := (linear_loss mx Sx params absolute).2 in
  symmetric s_cost /\ psd s_cost.
Proof.
move=> sS pS /=; split.
  by rewrite /symmetric !trmx_mul trmxK sS mulmxA.
move=> v; have := pS (v *m (params_Q params)^T).
by rewrite trmx_mul trmxK !mulmxA.
Qed.

End MoreLosses.

Lemma linear_loss_covariance_witness :
  let s_cost :=
    (Cost.linear_loss (0 : 'rV[R]_1) 1%:M
       (Cost.LossParams (1%:M : 'M[R]_1) 0) true).2 in
  symmetric s_cost /\ psd s_cost.
Proof.
apply: linear_loss_covariance; first exact: symmetric_scalar.
exact: psd_scalar.
Defined.

(** * [cartpole.py] *)

Section CartpoleWeights.

Import Cartpole.

Lemma np_index0 (n : nat) : np_index n.+1 0 = Ok ord0.
Proof.
rewrite /np_index /= (insubT (fun k => k < n.+1)%N (ltn0Sn n)).
by congr Ok; apply/val_inj.
Qed.

Lemma np_index_last (n : nat) : np_index n.+1 (Negz 0) = Ok ord_max.
Proof.
rewrite /np_index /= subn1 /= (insubT (fun k => k < n.+1)%N (ltnSn n)).
by congr Ok; apply/val_inj.
Qed.

Lemma np_index_penultimate (n : nat) :
  np_index n.+2 (Negz 1) = Ok (inord n).
Proof.
have lt_n : (n < n.+2)%N by rewrite ltnS leqnSn.
rewrite /np_index /= subn2 /= (insubT (fun k => k < n.+2)%N lt_n).
by congr Ok; apply/val_inj; rewrite /= inordK.
Qed.

Lemma setitemE (n : nat) (Q : 'M[R]_n) (i j : int) (a b : 'I_n) (v : R) :
  np_index n i = Ok a -> np_index n j = Ok b ->
  setitem Q i j v = Ok (\matrix_(r, c) if (r == a) && (c == b) then v else Q r c).
Proof. by rewrite /setitem => -> ->. Qed.

(** The matrix that five assignments at three distinct indices build. *)
Lemma five_assignments (N : nat) (j0 j1 j2 : 'I_N) (ell : R) :
  j1 != j0 -> j1 != j2 -> j2 != j0 ->
  let a : 'rV[R]_N := delta_mx 0 j0 + ell *: delta_mx 0 j1 in
  let b : 'rV[R]_N := ell *: delta_mx 0 j2 in
  (\matrix_(r, c)
     if (r == j2) && (c == j2) then ell ^+ 2 else
     if (r == j1) && (c == j1) then ell ^+ 2 else
     if (r == j1) && (c == j0) then ell else
     if (r == j0) && (c == j1) then ell else
     if (r == j0) && (c == j0) then 1 else 0) =
  a^T *m a + b^T *m b.
Proof.
move=> j10 j12 j20 a b; apply/matrixP => r c.
rewrite !mxE !big_ord1 !mxE !eqxx /=.
have [[e1 e2] e3] := (negbTE j10, negbTE j12, negbTE j20).
have [e4 e5 e6] : [/\ (j0 == j1) = false, (j2 == j1) = false &
    (j0 == j2) = false].
  by rewrite [j0 == j1]eq_sym [j2 == j1]eq_sym [j0 == j2]eq_sym e1 e2 e3.
pose E := (e1, e2, e3, e4, e5, e6, eqxx, andbF, andFb).
pose S := (mulr0, mul0r, addr0, add0r, mulr1, mul1r).
have [er|nr2] := eqVneq r j2.
  rewrite ?er ?E /= ?S.
  have [ec|nc2] := eqVneq c j2; first by rewrite ?ec ?E /= ?S ?expr2.
  have [ec|nc1] := eqVneq c j1; first by rewrite ?ec ?E /= ?S.
  by have [ec|nc0] := eqVneq c j0; rewrite ?ec ?E /= ?S.
have [er|nr1] := eqVneq r j1.
  rewrite ?er ?E /= ?S.
  have [ec|nc2] := eqVneq c j2; first by rewrite ?ec ?E /= ?S.
  have [ec|nc1] := eqVneq c j1; first by rewrite ?ec ?E /= ?S ?expr2.
  by have [ec|nc0] := eqVneq c j0; rewrite ?ec ?E /= ?S.
have [er|nr0] := eqVneq r j0.
  rewrite ?er ?E /= ?S.
  have [ec|nc2] := eqVneq c j2; first by rewrite ?ec ?E /= ?S.
  have [ec|nc1] := eqVneq c j1; first by rewrite ?ec ?E /= ?S.
  by have [ec|nc0] := eqVneq c j0; rewrite ?ec ?E /= ?S.
by rewrite /= ?S.
Qed.

Lemma cartpole_QE (n : nat) (ell : R) :
  let i1 : 'I_n.+3 := inord n.+1 in
  let a : 'rV[R]_n.+3 := delta_mx 0 0 + ell *: delta_mx 0 i1 in
  let b : 'rV[R]_n.+3 := ell *: delta_mx 0 ord_max in
  cartpole_Q n.+3 ell = Ok (a^T *m a + b^T *m b).
Proof.
move=> i1 a b; rewrite /cartpole_Q.
rewrite (setitemE _ _ (np_index0 _) (np_index0 _)) bind_OkE.
rewrite (setitemE _ _ (np_index0 _) (np_index_penultimate _)) bind_OkE.
rewrite (setitemE _ _ (np_index_penultimate _) (np_index0 _)) bind_OkE.
rewrite (setitemE _ _ (np_index_penultimate _) (np_index_penultimate _)).
rewrite bind_OkE (setitemE _ _ (np_index_last _) (np_index_last _)) bind_OkE.
have i10 : i1 != 0 by rewrite -val_eqE /= inordK.
have i1m : i1 != ord_max by rewrite -val_eqE /= inordK // neq_ltn ltnSn.
have m0 : (ord_max : 'I_n.+3) != 0 by rewrite -val_eqE.
congr Ok; rewrite -(five_assignments ell i10 i1m m0).
by apply/matrixP => r c; rewrite !mxE.
Qed.

Lemma mx11_mul (X Y : 'M[R]_1) : (X *m Y) 0 0 = X 0 0 * Y 0 0.
Proof. by rewrite mxE big_ord1. Qed.

Lemma qform_outer_sum (n : nat) (a b v : 'rV[R]_n) :
  qform (a^T *m a + b^T *m b) v =
  ((v *m a^T) 0 0) ^+ 2 + ((v *m b^T) 0 0) ^+ 2.
Proof.
rewrite /qform mulmxDr mulmxDl mxE !mulmxA.
rewrite -(mulmxA (v *m a^T)) -(mulmxA (v *m b^T)).
have tr1 (w : 'rV[R]_n) : w *m v^T = (v *m w^T)^T by rewrite trmx_mul trmxK.
by rewrite !tr1 !mx11_tr !mx11_mul !expr2.
Qed.

Lemma symmetric_outer_sum (n : nat) (a b : 'rV[R]_n) :
  symmetric (a^T *m a + b^T *m b).
Proof. by rewrite /symmetric linearD /= !trmx_mul !trmxK. Qed.

Lemma mul_row_delta (n : nat) (v : 'rV[R]_n) (i : 'I_n) :
  (v *m (delta_mx 0 i : 'rV[R]_n)^T) 0 0 = v 0 i.
Proof. by rewrite trmx_delta -colE mxE. Qed.

Lemma row_dot_scale (n : nat) (v : 'rV[R]_n) (i : 'I_n) (ell : R) :
  (v *m (ell *: delta_mx 0 i : 'rV[R]_n)^T) 0 0 = ell * v 0 i.
Proof. by rewrite linearZ /= -scalemxAr [LHS]mxE mul_row_delta. Qed.

Lemma row_dot_combo (n : nat) (v : 'rV[R]_n) (i j : 'I_n) (ell : R) :
  (v *m (delta_mx 0 i + ell *: delta_mx 0 j : 'rV[R]_n)^T) 0 0 =
  v 0 i + ell * v 0 j.
Proof.
by rewrite linearD /= mulmxDr [LHS]mxE mul_row_delta row_dot_scale.
Qed.

Lemma cartpole_Q_form (n : nat) (ell : R) :
  exists2 Q, cartpole_Q n.+3 ell = Ok Q &
    [/\ symmetric Q, psd Q &
        forall v : 'rV[R]_n.+3,
          qform Q v =
          (v 0 0 + ell * v 0 (inord n.+1)) ^+ 2 + (ell * v 0 ord_max) ^+ 2].
Proof.
pose a : 'rV[R]_n.+3 := delta_mx 0 0 + ell *: delta_mx 0 (inord n.+1).
pose b : 'rV[R]_n.+3 := ell *: delta_mx 0 ord_max.
have eQ : cartpole_Q n.+3 ell = Ok (a^T *m a + b^T *m b) by exact: cartpole_QE.
exists (a^T *m a + b^T *m b) => //.
have form (v : 'rV[R]_n.+3) : qform (a^T *m a + b^T *m b) v =
    (v 0 0 + ell * v 0 (inord n.+1)) ^+ 2 + (ell * v 0 ord_max) ^+ 2.
  by rewrite qform_outer_sum row_dot_combo row_dot_scale.
split=> [||//]; first exact: symmetric_outer_sum.
by move=> v; rewrite -/(qform _ _) form addr_ge0 // sqr_ge0.
Qed.

Lemma cartpole_Q_lt3 (ell : R) :
  [/\ cartpole_Q 0 ell = Err IndexError,
      cartpole_Q 1 ell = Err IndexError &
      cartpole_Q 2 ell = Ok (ell ^+ 2)%:M].
Proof.
split.
- by rewrite /cartpole_Q /setitem /np_index /= insubF.
- rewrite /cartpole_Q (setitemE _ _ (np_index0 _) (np_index0 _)) bind_OkE.
  by rewrite /setitem np_index0.
rewrite /cartpole_Q.
rewrite (setitemE _ _ (np_index0 _) (np_index0 _)) bind_OkE.
rewrite (setitemE _ _ (np_index0 _) (np_index_penultimate _)) bind_OkE.
rewrite (setitemE _ _ (np_index_penultimate _) (np_index0 _)) bind_OkE.
rewrite (setitemE _ _ (np_index_penultimate _) (np_index_penultimate _)).
rewrite bind_OkE (setitemE _ _ (np_index_last _) (np_index_last _)) bind_OkE.
have e0 : inord 0 = 0 :> 'I_2 by apply/val_inj; rewrite /= inordK.
have em : ord_max = 1 :> 'I_2 by apply/val_inj.
congr Ok; apply/matrixP => r c; rewrite !mxE e0 em -[ord0]/(0 : 'I_2).
have [->|r0] := eqVneq r 0; have [->|c0] := eqVneq c 0; rewrite ?eqxx //=.
  by rewrite (negbTE r0) andbF.
have -> : r = 1 by case: r r0 => [[|[|r]] lt_r] // _; apply/val_inj.
have -> : c = 1 by case: c c0 => [[|[|c]] lt_c] // _; apply/val_inj.
by rewrite eqxx mulr1n.
Qed.

(** X14.  With at least three dimensions after the angles are replaced, the
    weight matrix of [cartpole_loss] is built without error, and it is the
    matrix of the quadratic form
    [(v[0] + ell * v[-2])^2 + (ell * v[-1])^2], hence symmetric and
    positive semi-definite. *)
Theorem cartpole_Q_quadratic_form (n : nat) (ell : R) :
  exists2 Q, cartpole_Q n.+3 ell = Ok Q &
    [/\ symmetric Q, psd Q &
        forall v : 'rV[R]_n.+3,
          qform Q v =
          (v 0 0 + ell * v 0 (inord n.+1)) ^+ 2 + (ell * v 0 ord_max) ^+ 2].
Proof. exact: cartpole_Q_form. Qed.

(** X15.  With fewer than two dimensions the weight matrix cannot be built:
    the index [-2] is out of bounds.  With exactly two, the indices [0]
    and [-2] are the same, the later assignments overwrite the earlier
    ones, and what is left is [ell^2] on the diagonal. *)
Theorem cartpole_Q_small (ell : R) :
  [/\ cartpole_Q 0 ell = Err IndexError,
      cartpole_Q 1 ell = Err IndexError &
      cartpole_Q 2 ell = Ok (ell ^+ 2)%:M].
Proof. exact: cartpole_Q_lt3. Qed.

End CartpoleWeights.


Section CartpoleLoss.

Import Cartpole Cost.

Variables D n : nat.

Variable gTrig_np : 'rV[R]_D -> seq nat -> 'rV[R]_n.+2.
Variable gTrig2 :
  'rV[R]_D -> 'M[R]_D -> seq nat -> nat ->
  'rV[R]_n.+2 * 'M[R]_n.+2 * 'M[R]_(D, n.+2).

Local Notation cartpole_loss := (cartpole_loss gTrig_np gTrig2).

Lemma cartpole_Q_psd (ell : R) :
  exists2 Q, cartpole_Q n.+2 ell = Ok Q & symmetric Q /\ psd Q.
Proof.
case: n => [|m].
  have [_ _ ->] := cartpole_Q_lt3 ell; eexists; first by [].
  by split; [exact: symmetric_scalar | apply: psd_scalar; rewrite sqr_ge0].
by have [Q -> [sQ pQ _]] := cartpole_Q_form m ell; exists Q.
Qed.




(** X17.  At the target and without uncertainty (the augmented mean is the
    augmented target and the augmented covariance is zero),
    [cartpole_loss] with the saturating loss returns a zero cost with
    zero variance, whatever the non-zero widths and the exploration
    weight. *)
Theorem cartpole_loss_at_target mx Sx (params : cartpole_params D) cw Ca :
  cw = match width params with Width c => [:: c] | Widths cs => cs end ->
  all (fun c => c != 0) cw ->
  gTrig2 mx Sx (angle_dims params) D =
    (gTrig_np (target params) (angle_dims params), 0, Ca) ->
  cartpole_loss mx Sx params (@quadratic_saturating_loss _) = Ok (0, 0).
Proof.
move=> -> _; rewrite /cartpole_loss => -> /=.
have [Q -> _] := cartpole_Q_psd (pendulum_length params); rewrite bind_OkE.
set cw' := match width params with Width c => _ | Widths cs => _ end.
set t := gTrig_np _ _.
have -> : width_costs (@quadratic_saturating_loss _) (expl params) t 0 t Q cw' =
    Ok (nseq (size cw') 0, nseq (size cw') 0).
  elim: cw' => [|c cw' IH] //=.
  rewrite saturating_loss_at_target /= IH /=; congr (Ok (_ :: _, _)).
  have s0 : sqrt 0 = 0 by exact: sqrt_0.
  by case: (expl params) => // b; rewrite s0 mulr0 addr0 if_same.
by rewrite /= !big_nseq !iter_addr_0 !mul0rn.
Qed.

End CartpoleLoss.

Section CartpoleDynamics.

Import Cartpole.

Lemma cos2_le1 (th : R) : cos th * cos th <= 1.
Proof.
have h : sin th * sin th + cos th * cos th = 1 := sin2_cos2 th.
by rewrite -h lerDr -expr2 sqr_ge0.
Qed.

(** X18.  For a positive pendulum mass, a non-negative cart mass and a non-zero
    pendulum length, the denominators of [dynamics] do not vanish, and the
    accelerations [ddx = dz[1]] and [ddtheta = dz[2]] that it returns for
    the state [(x, dx, dtheta, theta)] solve the two equations of motion
    of the cart and the pendulum under the force [f[0]] and the friction
    [b * dx]. *)
Theorem dynamics_equations_of_motion p u t x dx dth th :
  0 < param_m p -> 0 <= param_M p -> param_l p != 0 -> u <> Some [::] ->
  let l := param_l p in
  let m := param_m p in
  let M := param_M p in
  let b := param_b p in
  let g := param_g p in
  exists ddx ddth,
    [/\ dynamics p u t [:: x; dx; dth; th] = Ok [:: dx; ddx; ddth; dth],
        0 < 4%:R * (M + m) - 3%:R * m * (cos th * cos th),
        (M + m) * ddx + 2%:R^-1 * m * l * ddth * cos th
          - 2%:R^-1 * m * l * dth ^+ 2 * sin th = force u - b * dx &
        2%:R * l * ddth + 3%:R * ddx * cos th + 3%:R * g * sin th = 0].
Proof.
move=> m0 M0 l0 u0 l m M b g.
have ef : getitem (if u is Some f then f else [:: 0]) 0 = Ok (force u).
  by case: u u0 => [[|f0 f]|].
rewrite /dynamics ef /getitem /= -/l -/m -/M -/b -/g.
set c := cos th; set s := sin th.
have c1 : c * c <= 1 := cos2_le1 th.
have a3_gt0 : 0 < 4%:R * (M + m) - 3%:R * m * (c * c).
  have : 0 <= 3%:R * m * (1 - c * c).
    by rewrite mulr_ge0 ?subr_ge0 // mulr_ge0 ?ler0n // ltW.
  rewrite /m /M in m0 M0 *; lra.
have a3_neq0 : 4%:R * (M + m) - 3%:R * m * (c * c) != 0 by rewrite gt_eqF.
do 2![eexists]; split; first by [].
- by [].
- by field; rewrite a3_neq0 l0.
by field; rewrite a3_neq0 l0.
Qed.

(** X19.  [dynamics_no_angles] on the state [(x, dx, dtheta, sin theta, cos
    theta)] is [dt] times the time derivative of that state along
    [dynamics]: the first three entries are those of [dynamics] on
    [(x, dx, dtheta, theta)], and the last two are the derivatives
    [cos theta * dtheta] and [- sin theta * dtheta] of the sine and the
    cosine; it fails when [dynamics] fails. *)
Theorem dynamics_no_angles_lifts p dt u t x dx dth th :
  dynamics_no_angles p dt t [:: x; dx; dth; sin th; cos th] u =
  do dz <- dynamics p u t [:: x; dx; dth; th];
  Ok [:: nth 0 dz 0 * dt; nth 0 dz 1 * dt; nth 0 dz 2 * dt;
         cos th * nth 0 dz 3 * dt; - sin th * nth 0 dz 3 * dt].
Proof.
rewrite /dynamics_no_angles /dynamics /getitem /=.
by case: u => [[|f0 f]|].
Qed.

End CartpoleDynamics.


Lemma cartpole_loss_at_target_witness :
  Cartpole.cartpole_loss CartpoleToy.gTrig_np CartpoleToy.gTrig2
    0 0 CartpoleToy.params (@Cost.quadratic_saturating_loss _) = Ok (0, 0).
Proof.
apply: (@cartpole_loss_at_target 2 0 CartpoleToy.gTrig_np CartpoleToy.gTrig2
  0 0 CartpoleToy.params [:: 1; 2%:R] 1%:M) => //=.
by rewrite oner_neq0 pnatr_eq0.
Defined.

Lemma dynamics_equations_of_motion_witness :
  let p := CartpoleToy.toy_plant in
  exists ddx ddth,
    [/\ Cartpole.dynamics p None 0 [:: 0; 1; 1; 0] = Ok [:: 1; ddx; ddth; 1],
        0 < 4%:R * (1 + 1) - 3%:R * 1 * (cos 0 * cos 0),
        (1 + 1) * ddx + 2%:R^-1 * 1 * 1 * ddth * cos 0
          - 2%:R^-1 * 1 * 1 * 1 ^+ 2 * sin 0 = Cartpole.force None - 0 * 1 &
        2%:R * 1 * ddth + 3%:R * ddx * cos 0 + 3%:R * 1 * sin 0 = 0].
Proof.
apply: (@dynamics_equations_of_motion CartpoleToy.toy_plant None 0 0 1 1 0) => //=.
exact: oner_neq0.
Defined.

(** * [plant.py] *)

Section PlantProperties.

Import Plant.

Variables D Da : nat.
Variable rng : Type.
Variable gTrig_np : 'rV[R]_D -> seq nat -> 'rV[R]_Da.

Local Notation get_state := (get_state gTrig_np).
Local Notation polling_loop := (polling_loop gTrig_np).

(** X20.  A noisy measurement is written back into the plant: with a noise
    distribution set, [k] cycles of the polling loop, each one call of
    [get_state()], leave in [self.state] the state plus the sum of the
    [k] noise samples drawn, and change nothing else in the plant; a
    noise-free [get_state(noisy=False)] afterwards measures that sum,
    not the state that the plant had. *)
Theorem get_state_noise_accumulates (p : plant D rng) sample k g :
  noise_dist p = Some sample ->
  let: (sent, p', g') := polling_loop k p g in
  let noise := (draw_seq sample k g).1 in
  let x := state p + \sum_(e <- noise) e in
  [/\ p' = MkPlant (dt p) (noise_dist p) (angle_dims p) x (t p),
      g' = (draw_seq sample k g).2 &
      get_state false p' g' =
        ((if angle_dims p is [::] then flatten_row x
          else flatten_row (gTrig_np x (angle_dims p)), t p), p', g')].
Proof.
case: p => dt nd ad st t /= ->.
elim: k st g => [|k IH] st g /=; first by rewrite big_nil addr0.
rewrite /Plant.get_state /=; case: (sample g) => [e g1] /=.
have := IH (st + e) g1; case: polling_loop => [[ms p'] g'] /=.
case: (draw_seq sample k g1) => noise g2 /= [-> -> _].
by rewrite big_cons addrA.
Qed.

End PlantProperties.

Lemma get_state_noise_accumulates_witness :
  let: (sent, p', g') :=
    Plant.polling_loop PlantToy.toy_gTrig_np 3 PlantToy.noisy_plant 1%N in
  let noise := (draw_seq PlantToy.sample 3 1%N).1 in
  let x := Plant.state PlantToy.noisy_plant + \sum_(e <- noise) e in
  [/\ p' = Plant.MkPlant 1 (Some PlantToy.sample) [::] x 0,
      g' = (draw_seq PlantToy.sample 3 1%N).2 &
      Plant.get_state PlantToy.toy_gTrig_np false p' g' =
        ((Plant.flatten_row x, 0), p', g')].
Proof.
exact: (@get_state_noise_accumulates 1 1 nat PlantToy.toy_gTrig_np
  PlantToy.noisy_plant PlantToy.sample 3 1%N erefl).
Defined.

(** ** [SerialPlant.state_from_serial] *)

Section SerialProperties.

Import Serial.

Variable unpack_d : seq Byte.byte -> R.

Local Notation state_from_serial := (state_from_serial unpack_d).
Local Notation unpack_all := (unpack_all unpack_d).

Lemma read_fields_escape f s buf res :
  read_fields (escape f ++ s) buf res false =
  read_fields s (buf ++ f) res false.
Proof.
rewrite /escape; elim: f buf => [|b f IH] buf /=; first by rewrite cats0.
rewrite -catA; case: ifP => [sp|].
  by rewrite /= IH cat_rcons.
rewrite !inE => /negbT; rewrite !negb_or => /and3P[/negbTE e1 /negbTE e2 /negbTE e3].
rewrite /= e1 e2 e3 /=.
by rewrite IH cat_rcons.
Qed.

Lemma read_fields_message fs rest res :
  fs != [::] ->
  read_fields (message fs ++ rest) [::] res false = Returned (res ++ fs, rest).
Proof.
elim: fs res => [|f fs IH] res // _.
case: fs IH => [|f' fs] IH.
  by rewrite /= -catA read_fields_escape /= cats1.
rewrite [message _]/= -/(message (f' :: fs)) -catA read_fields_escape.
by rewrite cat_cons /= IH // cat_rcons.
Qed.

Lemma unpack_all_ok fs :
  all (fun f => size f == 8) fs -> unpack_all fs = Returned (map unpack_d fs).
Proof. by elim: fs => //= f fs IH /andP[-> /IH->]. Qed.

Lemma unpack_all_bad fs :
  ~~ all (fun f => size f == 8) fs -> unpack_all fs = Raised StructError.
Proof.
elim: fs => //= f fs IH; case: ifP => //= _ /IH->.
by [].
Qed.

Lemma take_indices_ok (res : seq R) idx :
  all (fun i => i < size res)%N idx ->
  take_indices res idx = Returned [seq nth 0 res i | i <- idx].
Proof. by elim: idx => //= i idx IH /andP[-> /IH->]. Qed.

Lemma wait_header_found s : wait_header s (PyBytes header) = Returned s.
Proof. by case: s. Qed.

(** X21.  The wait for the header does not resynchronise: when the first two
    bytes on the line are not the header [b'4,'], the arrival of a third
    byte raises [TypeError], whatever follows. *)
Theorem serial_header_not_resynchronised idx c0 c1 c2 s :
  [:: c0; c1] != header ->
  state_from_serial idx (c0 :: c1 :: c2 :: s) = Raised TypeError.
Proof. by rewrite /state_from_serial /= => /negbTE->. Qed.

(** X22.  A message sent right after the header is read back field by field:
    for a message of at least one field, each of eight bytes, with every
    separator and escape byte inside a field escaped by [/], the function
    returns the doubles of the fields at [state_indices] and the double
    of the last field as the time stamp, and leaves on the line what
    follows the closing [;]. *)
Theorem serial_message_round_trip idx fs rest :
  fs != [::] -> all (fun f => size f == 8) fs ->
  all (fun i => i < size fs)%N idx ->
  state_from_serial idx (header ++ message fs ++ rest) =
  Returned (([seq unpack_d (nth [::] fs i) | i <- idx],
             unpack_d (last [::] fs)), rest).
Proof.
move=> fs0 s8 ix; rewrite /state_from_serial /= wait_header_found /=.
rewrite read_fields_message //=.
rewrite unpack_all_ok //= take_indices_ok ?size_map //=.
congr (Returned (_, _, _)); last first.
  by case: fs fs0 {s8 ix} => // f fs _; rewrite /= last_map.
apply/eq_in_map => i /(allP ix) lt_i.
by rewrite (nth_map [::]).
Qed.

(** X23.  A field that is not eight bytes long makes the function raise
    [struct.error], after the whole message has been read. *)
Theorem serial_field_size idx fs rest :
  fs != [::] -> ~~ all (fun f => size f == 8) fs ->
  state_from_serial idx (header ++ message fs ++ rest) = Raised StructError.
Proof.
move=> fs0 s8; rewrite /state_from_serial /= wait_header_found /=.
rewrite read_fields_message //=.
by rewrite unpack_all_bad.
Qed.

End SerialProperties.

Lemma serial_header_not_resynchronised_witness :
  Serial.state_from_serial SerialToy.unpack_d [:: 0%N]
    (Byte.x00 :: Serial.header ++ Serial.message [:: SerialToy.field]) =
  Serial.Raised Serial.TypeError.
Proof.
exact: (@serial_header_not_resynchronised SerialToy.unpack_d [:: 0%N]
  Byte.x00 Serial.byte_4 Serial.byte_comma _ isT).
Defined.

Lemma serial_message_round_trip_witness :
  Serial.state_from_serial SerialToy.unpack_d [:: 1%N; 0%N]
    (Serial.header ++
     Serial.message [:: SerialToy.field; nseq 8 Byte.x01] ++ [:: Byte.x02]) =
  Serial.Returned
    (([seq SerialToy.unpack_d
             (nth [::] [:: SerialToy.field; nseq 8 Byte.x01] i)
         | i <- [:: 1%N; 0%N]],
      SerialToy.unpack_d (last [::] [:: SerialToy.field; nseq 8 Byte.x01])),
     [:: Byte.x02]).
Proof.
exact: (@serial_message_round_trip SerialToy.unpack_d [:: 1%N; 0%N]
  [:: SerialToy.field; nseq 8 Byte.x01] [:: Byte.x02] isT isT isT).
Defined.

Lemma serial_field_size_witness :
  Serial.state_from_serial SerialToy.unpack_d [:: 0%N]
    (Serial.header ++ Serial.message [:: nseq 7 Byte.x00] ++ [::]) =
  Serial.Raised Serial.StructError.
Proof.
exact: (@serial_field_size SerialToy.unpack_d [:: 0%N]
  [:: nseq 7 Byte.x00] [::] isT isT).
Defined.

(** * [Loadable.py] *)

Section LoadableProperties.

Import Loadable.

Variable object : Type.
Variable type_ : eqType.
Variable isinstance : object -> type_ -> bool.

Local Notation loadable := (loadable object type_).
Local Notation get_instance_state := (get_instance_state isinstance).

Implicit Types (self : loadable) (d state : seq (string * object)).

Local Notation has_attr := (@has_attr object type_).
Local Notation typed := (typed isinstance).

Lemma mem_set_add (T : eqType) (s : seq T) (x y : T) :
  (y \in set_add s x) = (y == x) || (y \in s).
Proof.
rewrite /set_add; case: ifP => [xs|_]; last by rewrite mem_rcons inE.
by case: eqP => // ->; rewrite xs.
Qed.

Lemma uniq_set_add (T : eqType) (s : seq T) (x : T) :
  uniq s -> uniq (set_add s x).
Proof.
by rewrite /set_add; case: ifP => // nxs us; rewrite rcons_uniq nxs.
Qed.

(** What the loop of [register] does, name by name. *)
Lemma register_loop_cat names1 names2 self :
  all (has_attr self) names1 ->
  exists2 keys,
    register_loop (names1 ++ names2) self =
    register_loop names2
      (MkLoadable (dict self) keys (registered_types self)) &
    (uniq (registered_keys self) -> uniq keys) /\
    forall n, (n \in keys) = (n \in registered_keys self) || (n \in names1).
Proof.
elim: names1 self => [|a names1 IH] self /=.
  by case: self => d k t _; exists k; split=> // n; rewrite orbF.
case/andP; rewrite {1}/has_attr; case: dict_get => // o _ a1.
have [|keys -> [uk mk]] := IH (MkLoadable (dict self)
  (set_add (registered_keys self) a) (registered_types self)) => //.
exists keys => //=; split=> [u|n]; first exact/uk/uniq_set_add.
by rewrite mk mem_set_add inE orbA [(n == a) || _]orbC.
Qed.

(** X24.  [register] is not atomic: when a name of the list is not an
    attribute, the call raises [AssertionError], the names before it
    stay registered, and the names after it are not looked at. *)
Theorem register_not_atomic self names1 bad names2 :
  all (has_attr self) names1 -> ~~ has_attr self bad ->
  let: (e, self') := register (List (names1 ++ bad :: names2)) self in
  [/\ e = Some AssertionError,
      dict self' = dict self,
      registered_types self' = registered_types self &
      forall n, (n \in registered_keys self') =
                (n \in registered_keys self) || (n \in names1)].
Proof.
move=> a1 nb; rewrite /register /=.
have [keys -> [_ mk]] := register_loop_cat (bad :: names2) a1.
by move: nb; rewrite /= /has_attr; case: dict_get.
Qed.

(** X25.  When every name is an attribute, [register] returns, and the
    registered keys are the earlier ones and the names given. *)
Theorem register_all self names :
  all (has_attr self) (as_list names) ->
  let: (e, self') := register names self in
  [/\ e = None,
      dict self' = dict self,
      uniq (registered_keys self) -> uniq (registered_keys self') &
      forall n, (n \in registered_keys self') =
                (n \in registered_keys self) || (n \in as_list names)].
Proof.
move=> a1; rewrite /register.
have [keys] := register_loop_cat [::] a1; rewrite cats0 => -> [uk mk].
by [].
Qed.

Lemma unregister_loopE names self :
  uniq (registered_keys self) ->
  let self' := unregister_loop names self in
  [/\ dict self' = dict self,
      registered_types self' = registered_types self,
      uniq (registered_keys self') &
      forall n, (n \in registered_keys self') =
                (n \in registered_keys self) && (n \notin names)].
Proof.
elim: names self => [|a names IH] self uk /=.
  by split=> // n; rewrite andbT.
case: ifP => [ak|nak].
  have /= [-> -> u' m'] := IH (MkLoadable (dict self)
    (rem a (registered_keys self)) (registered_types self)) (rem_uniq _ uk).
  split=> // n; rewrite m' mem_rem_uniq // !inE negb_or.
  by rewrite andbA [(n != a) && _]andbC.
have [-> -> u' m'] := IH self uk; split=> // n; rewrite m' inE negb_or.
by case: eqP => [->|] //=; rewrite nak.
Qed.

(** X26.  [unregister] skips the names that are not registered: it never
    raises, and afterwards the registered keys are the earlier ones
    that are not among the names given. *)
Theorem unregister_skips_unknown self names :
  uniq (registered_keys self) ->
  let self' := unregister names self in
  [/\ dict self' = dict self,
      registered_types self' = registered_types self,
      uniq (registered_keys self') &
      forall n, (n \in registered_keys self') =
                (n \in registered_keys self) && (n \notin as_list names)].
Proof. exact: unregister_loopE. Qed.

(** X27.  [unregister_types], unlike [unregister], raises on what is not
    registered: it returns exactly when the types given are distinct and
    all registered, and then they are the ones removed; otherwise it
    raises [KeyError], and the attributes are as before. *)
Theorem unregister_types_strict self types_ :
  uniq (registered_types self) ->
  let: (e, self') := unregister_types types_ self in
  [/\ ~~ isSome e =
        uniq (as_list types_) &&
        all (mem (registered_types self)) (as_list types_),
      e = None \/ e = Some KeyError,
      dict self' = dict self /\ registered_keys self' = registered_keys self &
      e = None ->
      forall t, (t \in registered_types self') =
                (t \in registered_types self) && (t \notin as_list types_)].
Proof.
rewrite /unregister_types; elim: (as_list types_) self => [|a ts IH] self ut.
  by split=> //; [left | move=> _ t; rewrite andbT].
rewrite /= /set_remove; case: ifP => [ar|nar] /=; last first.
  by split=> //; [rewrite andbF | right].
have := IH (MkLoadable (dict self) (registered_keys self)
  (rem a (registered_types self))) (rem_uniq _ ut).
case: unregister_types_loop => e self' /= [ee ek [-> ->] em]; split=> //.
  rewrite ee; case: (boolP (a \in ts)) => [ats|nats] /=.
    rewrite andbC; case: (boolP (all _ ts)) => //= /allP/(_ a ats) h.
    by have := h : a \in rem a _; rewrite mem_rem_uniq // !inE eqxx.
  congr (_ && _); apply: eq_in_all => t tts.
  rewrite -[LHS]/(t \in rem a _) -[RHS]/(t \in _) mem_rem_uniq // !inE.
  by case: eqP nats tts => // -> /negbTE->.
move=> /em {}em t; rewrite em mem_rem_uniq // !inE negb_or.
by rewrite andbA [(t != a) && _]andbC.
Qed.

Lemma dict_get_set state key value name :
  dict_get (dict_set state key value) name =
  if name == key then Some value else dict_get state name.
Proof.
elim: state => [|[k v] state IH] /=.
  by rewrite [name == key]eq_sym.
case E: (String.eqb k key) => /=.
  move/String.eqb_eq: E => ->; rewrite [name == key]eq_sym.
  by rewrite -[String.eqb key name]/(key == name); case: eqP.
rewrite IH; case: (String.eqb k name) (@string_eqP k name) => // kn.
by case: eqP E => // <-; rewrite (elimT kn isT) String.eqb_refl.
Qed.

Lemma dict_get_mem d name value :
  dict_get d name = Some value -> name \in [seq kv.1 | kv <- d].
Proof.
elim: d => [|[k v] d IH] //=; case E: (String.eqb k name) => /=.
  by move/String.eqb_eq: E => -> _; rewrite mem_head.
by move=> e; rewrite inE (IH e) orbT.
Qed.

Lemma state_of_keysE self keys state :
  all (has_attr self) keys ->
  exists2 state', state_of_keys self keys state = Returned state' &
    forall name, dict_get state' name =
      if name \in keys then dict_get (dict self) name else dict_get state name.
Proof.
elim: keys state => [|k keys IH] state /=; first by exists state.
case/andP; rewrite {1}/has_attr; case E: dict_get => [v|] // _ ak.
have [state' -> ls] := IH (dict_set state k v) ak; exists state' => // name.
by rewrite ls dict_get_set inE; case: eqP => [->|] //=; rewrite E if_same.
Qed.

Lemma state_of_typesE self state name :
  dict_get (state_of_types isinstance self state) name =
  if typed self name then dict_get (dict self) name else dict_get state name.
Proof.
rewrite /state_of_types.
have -> : typed self name =
    (name \in [seq kv.1 | kv <- dict self]) && typed self name.
  rewrite /typed; case E: dict_get => [v|]; last by rewrite andbF.
  by rewrite (dict_get_mem E).
elim: [seq kv.1 | kv <- dict self] state => [|a ks IH] state //=.
rewrite IH inE; case: (boolP ((name \in ks) && _)) => [/andP[-> ->]|nks].
  by rewrite orbT.
have [->|na] /= := eqVneq name a.
  rewrite /typed; case E: (dict_get (dict self) a) => [v|] //.
  by case: ifP => // _; rewrite dict_get_set eqxx.
rewrite (negbTE nks); case: (dict_get (dict self) a) => // v; case: ifP => // _.
by rewrite dict_get_set (negbTE na).
Qed.

Lemma register_loop_attrs names self :
  all (has_attr self) (registered_keys self) ->
  let self' := (register_loop names self).2 in
  [/\ dict self' = dict self,
      registered_types self' = registered_types self &
      all (has_attr self') (registered_keys self')].
Proof.
elim: names self => [|a names IH] self ak //=.
case E: dict_get => [v|] //=.
apply: (IH (MkLoadable _ _ _)); rewrite /= /set_add; case: ifP => // _.
by rewrite all_rcons ak /has_attr /= E.
Qed.

Lemma after_call_attrs self c :
  all (has_attr self) (registered_keys self) ->
  dict (after_call self c) = dict self /\
  all (has_attr (after_call self c)) (registered_keys (after_call self c)).
Proof.
move=> ak; case: c => [names|names|ts|ts] /=.
- by have [] := register_loop_attrs (as_list names) ak.
- rewrite /unregister; elim: (as_list names) self ak => [|a ns IH] self ak //=.
  case: ifP => _; apply: IH => //=.
  by apply/allP => k /mem_rem /(allP ak).
- rewrite /register_types; elim: (as_list ts) self ak => [|a ns IH] self ak //=.
  exact: IH.
rewrite /unregister_types; elim: (as_list ts) self ak => [|a ns IH] self ak //=.
by rewrite /set_remove; case: ifP => _ //=; apply: IH.
Qed.

Lemma after_calls_attrs self calls :
  all (has_attr self) (registered_keys self) ->
  dict (after_calls self calls) = dict self /\
  all (has_attr (after_calls self calls))
      (registered_keys (after_calls self calls)).
Proof.
rewrite /after_calls; elim: calls self => [|c calls IH] self ak //=.
have [ed ak'] := after_call_attrs c ak.
by have [-> ak''] := IH _ ak'; rewrite ed.
Qed.

(** X28.  [get_instance_state] does not raise after any sequence of calls of
    the registry methods, failed or not, on an instance whose registered
    keys are attributes (as they are after [__init__], when there are
    none): every registered key stays an attribute.  The state that it
    returns binds exactly the attributes that are registered by key or
    bound to an instance of a registered type, each to its object. *)
Theorem get_instance_state_after_calls self calls :
  all (has_attr self) (registered_keys self) ->
  let self' := after_calls self calls in
  exists2 state, get_instance_state self' = Returned state &
    dict self' = dict self /\
    forall name, dict_get state name =
      if (name \in registered_keys self') || typed self' name
      then dict_get (dict self) name else None.
Proof.
move=> ak self'; have [ed ak'] := after_calls_attrs calls ak.
rewrite /Loadable.get_instance_state.
have [state -> ls] := state_of_keysE [::] ak'.
eexists; first by []; split=> // name.
rewrite state_of_typesE ls -/self' ed /=.
by case: (typed self' name); rewrite ?orbT // orbF.
Qed.

End LoadableProperties.

Lemma register_not_atomic_witness :
  let: (e, self') :=
    Loadable.register (Loadable.List [:: "a"; "c"; "b"]%string)
      LoadableToy.self in
  [/\ e = Some Loadable.AssertionError,
      Loadable.dict self' = Loadable.dict LoadableToy.self,
      Loadable.registered_types self' =
        Loadable.registered_types LoadableToy.self &
      forall n, (n \in Loadable.registered_keys self') =
                (n \in Loadable.registered_keys LoadableToy.self) ||
                (n \in [:: "a"%string])].
Proof.
exact: (@register_not_atomic nat unit LoadableToy.self [:: "a"%string]
  "c"%string [:: "b"%string] isT isT).
Defined.

Lemma register_all_witness :
  let: (e, self') :=
    Loadable.register (Loadable.List [:: "a"; "b"]%string) LoadableToy.self in
  [/\ e = None,
      Loadable.dict self' = Loadable.dict LoadableToy.self,
      uniq (Loadable.registered_keys LoadableToy.self) ->
        uniq (Loadable.registered_keys self') &
      forall n, (n \in Loadable.registered_keys self') =
                (n \in Loadable.registered_keys LoadableToy.self) ||
                (n \in [:: "a"; "b"]%string)].
Proof.
exact: (@register_all nat unit LoadableToy.self
  (Loadable.List [:: "a"; "b"]%string) isT).
Defined.

Lemma unregister_skips_unknown_witness :
  let self' :=
    Loadable.unregister (Loadable.One "a"%string) LoadableToy.self in
  [/\ Loadable.dict self' = Loadable.dict LoadableToy.self,
      Loadable.registered_types self' =
        Loadable.registered_types LoadableToy.self,
      uniq (Loadable.registered_keys self') &
      forall n, (n \in Loadable.registered_keys self') =
                (n \in Loadable.registered_keys LoadableToy.self) &&
                (n \notin [:: "a"%string])].
Proof.
exact: (@unregister_skips_unknown nat unit LoadableToy.self
  (Loadable.One "a"%string) isT).
Defined.

Lemma unregister_types_strict_witness :
  let: (e, self') :=
    Loadable.unregister_types (Loadable.One tt) LoadableToy.self in
  [/\ ~~ isSome e =
        uniq [:: tt] &&
        all (mem (Loadable.registered_types LoadableToy.self)) [:: tt],
      e = None \/ e = Some Loadable.KeyError,
      Loadable.dict self' = Loadable.dict LoadableToy.self /\
      Loadable.registered_keys self' =
        Loadable.registered_keys LoadableToy.self &
      e = None ->
      forall t, (t \in Loadable.registered_types self') =
                (t \in Loadable.registered_types LoadableToy.self) &&
                (t \notin [:: tt])].
Proof.
exact: (@unregister_types_strict nat unit LoadableToy.self
  (Loadable.One tt) isT).
Defined.

Lemma get_instance_state_after_calls_witness :
  let self' :=
    Loadable.after_calls LoadableToy.self
      [:: Loadable.Register unit (Loadable.List [:: "a"; "c"]%string);
          Loadable.RegisterTypes (Loadable.One tt);
          Loadable.UnregisterTypes (Loadable.List [:: tt; tt])] in
  exists2 state,
    Loadable.get_instance_state LoadableToy.isinstance self' =
      Loadable.Returned state &
    Loadable.dict self' = Loadable.dict LoadableToy.self /\
    forall name, Loadable.dict_get state name =
      if (name \in Loadable.registered_keys self') ||
         Loadable.typed LoadableToy.isinstance self' name
      then Loadable.dict_get (Loadable.dict LoadableToy.self) name else None.
Proof.
exact: (@get_instance_state_after_calls nat unit LoadableToy.isinstance
  LoadableToy.self _ isT).
Defined.
